(** * Real-time MJPEG relay with OCR sampling: model of [oldversion.py]

    The development embeds the worker loops of the relay (frame demuxer,
    bounded frame queue, multipart streamer, OCR sampler, teardown of the
    external encoder processes) as executable functions over explicit state
    and proves the behavioural properties the specification states. *)

From Stdlib Require Import Strings.Byte Strings.Ascii Strings.String.
From Stdlib Require Import Numbers.DecimalString Numbers.DecimalNat.
From Stdlib Require Import ZArith List Bool Lia Arith.
From Stdlib Require Import Sorting.Permutation.
Import ListNotations.

Open Scope Z_scope.

(* ===================================================================== *)
(** ** Byte strings: the fragment of Python [bytes] the relay uses        *)
(* ===================================================================== *)

Definition bytes := list byte.

(** [d.startswith(sub)] *)
Fixpoint startswith (sub d : bytes) : bool :=
  match sub, d with
  | [], _ => true
  | _ :: _, [] => false
  | a :: sub', b :: d' => Byte.eqb a b && startswith sub' d'
  end.

(** [d.find(sub)], scanning from offset [i]: lowest index of an occurrence,
    [-1] when there is none. *)
Fixpoint find_from (sub d : bytes) (i : Z) : Z :=
  if startswith sub d then i
  else match d with
       | [] => -1
       | _ :: d' => find_from sub d' (i + 1)
       end.

Definition find (sub d : bytes) : Z := find_from sub d 0.

(** Normalisation of a slice bound against a length, as Python does it. *)
Definition clamp_index (len i : Z) : Z :=
  if i <? 0 then Z.max 0 (i + len) else Z.min i len.

(** [d[lo:hi]] *)
Definition slice (d : bytes) (lo hi : Z) : bytes :=
  let len := Z.of_nat (length d) in
  let l := clamp_index len lo in
  let h := clamp_index len hi in
  firstn (Z.to_nat (h - l)) (skipn (Z.to_nat l) d).

(** [d[lo:]] *)
Definition slice_from (d : bytes) (lo : Z) : bytes :=
  skipn (Z.to_nat (clamp_index (Z.of_nat (length d)) lo)) d.

(* ===================================================================== *)
(** ** Configuration constants                                            *)
(* ===================================================================== *)

Definition FRAME_BUFFER_SIZE : nat := 20.
Definition OCR_FRAME_INTERVAL : Z := 30.
Definition HTTP_PORT : Z := 8000.

(** [b"--FRAME--"] *)
Definition MJPEG_BOUNDARY : bytes :=
  [x2d; x2d; x46; x52; x41; x4d; x45; x2d; x2d].

(** The JPEG start-of-image and end-of-image markers [b'\xff\xd8'] and
    [b'\xff\xd9']. *)
Definition SOI : bytes := [xff; xd8].
Definition EOI : bytes := [xff; xd9].

(* ===================================================================== *)
(** ** The bounded frame queue ([queue.Queue(maxsize=FRAME_BUFFER_SIZE)]) *)
(* ===================================================================== *)

Definition Frame := bytes.

(** The queue content, oldest entry first. *)
Definition frame_queue := list Frame.

(** [put_nowait]: [None] stands for [queue.Full]. *)
Definition put_nowait (q : frame_queue) (f : Frame) : option frame_queue :=
  if (length q <? FRAME_BUFFER_SIZE)%nat then Some (q ++ [f]) else None.

(** [get_nowait]: [None] stands for [queue.Empty]. *)
Definition get_nowait (q : frame_queue) : option (Frame * frame_queue) :=
  match q with
  | [] => None
  | f :: q' => Some (f, q')
  end.

(** What the other threads (the consumers) do to the queue while the
    reader is between two of its own queue operations: they can only take
    entries, oldest first. *)
Definition consumers_take (k : nat) (q : frame_queue) : frame_queue :=
  skipn k q.

(** Consumer activity around one insertion by the reader: the number of
    entries taken while [put(frame, timeout=0.1)] is blocked, between the
    [queue.Full] it raised and [get_nowait], and between [get_nowait] and
    [put_nowait]. *)
Record interference : Type := {
  during_wait : nat;
  before_get : nat;
  before_put : nat
}.

Definition quiet : interference :=
  {| during_wait := 0; before_get := 0; before_put := 0 |}.

(** [put(frame, timeout)]: returns at once when a slot is free; otherwise
    it blocks, and succeeds only if a consumer frees a slot before the
    timeout.  On [queue.Full] the queue is returned as the wait left it. *)
Definition put_timeout (w : nat) (q : frame_queue) (f : Frame)
  : frame_queue + frame_queue :=
  if (length q <? FRAME_BUFFER_SIZE)%nat then inl (q ++ [f])
  else
    let q' := consumers_take w q in
    if (length q' <? FRAME_BUFFER_SIZE)%nat then inl (q' ++ [f]) else inr q'.

Inductive put_outcome : Type :=
| Inserted          (* the timed put succeeded *)
| ReplacedOldest    (* oldest entry dropped, new frame appended *)
| Discarded         (* get_nowait raised queue.Empty: [pass] *)
| PutRaised.        (* put_nowait raised queue.Full, not caught here *)

(** Lines 54-63: the insertion attempt of the reader for one frame. *)
Definition reader_put (i : interference) (q : frame_queue) (frame : Frame)
  : frame_queue * put_outcome :=
  match put_timeout (during_wait i) q frame with
  | inl q' => (q', Inserted)
  | inr q0 =>
      let q1 := consumers_take (before_get i) q0 in
      match get_nowait q1 with
      | None => (q1, Discarded)
      | Some (_, q2) =>
          let q3 := consumers_take (before_put i) q2 in
          match put_nowait q3 frame with
          | Some q4 => (q4, ReplacedOldest)
          | None => (q3, PutRaised)
          end
      end
  end.

(* ===================================================================== *)
(** ** The frame demuxer ([mjpeg_frame_reader])                           *)
(* ===================================================================== *)

(** Local and shared state the reader works on.  [submitted] records, in
    order, every frame handed to the queue's put path. *)
Record reader_state : Type := {
  jpeg_data : bytes;
  queue : frame_queue;
  submitted : list Frame
}.

Definition reader_init : reader_state :=
  {| jpeg_data := []; queue := []; submitted := [] |}.

(** The guard of the inner [while]. *)
Definition can_extract (d : bytes) : bool :=
  let start_index := find SOI d in
  let end_index := find EOI d in
  negb (start_index =? -1) && negb (end_index =? -1)
  && (start_index <? end_index).

(** One outcome of [ffmpeg_stdout.read(4096)]. *)
Inductive read_result : Type :=
| Chunk (c : bytes)
| ReadError.

(** One turn of the outer loop: what [stop_event.is_set()] answers at
    its head and what the read returns. *)
Record reader_tick : Type := {
  stop_seen : bool;
  read : read_result
}.

Section Reader.

(** Consumer activity around the n-th insertion attempt. *)
Variable env : nat -> interference.

(** Lines 52-68.  The second component tells whether an exception left
    the loop.  Every turn removes at least three bytes from [jpeg_data],
    so its length bounds the number of turns. *)
Fixpoint extract_frames (fuel : nat) (st : reader_state)
  : reader_state * bool :=
  match fuel with
  | O => (st, false)
  | S fuel' =>
      let d := jpeg_data st in
      let start_index := find SOI d in
      let end_index := find EOI d in
      if can_extract d then
        let frame := slice d start_index (end_index + 2) in
        let sub := submitted st ++ [frame] in
        match reader_put (env (length (submitted st))) (queue st) frame with
        | (q', PutRaised) =>
            ({| jpeg_data := d; queue := q'; submitted := sub |}, true)
        | (q', _) =>
            extract_frames fuel'
              {| jpeg_data := slice_from d (end_index + 2);
                 queue := q'; submitted := sub |}
        end
      else (st, false)
  end.

(** Lines 41-73.  After the listed reads the source is closed (the next
    read returns [b'']), which ends the loop like an empty chunk does. *)
Fixpoint mjpeg_frame_reader (ticks : list reader_tick) (st : reader_state)
  : reader_state :=
  match ticks with
  | [] => st
  | t :: ticks' =>
      if stop_seen t then st
      else match read t with
           | ReadError => st
           | Chunk [] => st
           | Chunk c =>
               let d := jpeg_data st ++ c in
               let '(st', raised) :=
                 extract_frames (length d)
                   {| jpeg_data := d; queue := queue st;
                      submitted := submitted st |} in
               if raised then st' else mjpeg_frame_reader ticks' st'
           end
  end.

End Reader.

(** A source that delivers the given chunks while the stop signal stays
    clear. *)
Definition feed (chunks : list bytes) : list reader_tick :=
  map (fun c => {| stop_seen := false; read := Chunk c |}) chunks.

(** What the inner loop does to the accumulated bytes alone: the frames it
    cuts out, in order, and the bytes it leaves. *)
Fixpoint split_frames (fuel : nat) (d : bytes) : list Frame * bytes :=
  match fuel with
  | O => ([], d)
  | S fuel' =>
      if can_extract d then
        let '(fs, r) := split_frames fuel' (slice_from d (find EOI d + 2)) in
        (slice d (find SOI d) (find EOI d + 2) :: fs, r)
      else ([], d)
  end.

Definition split (d : bytes) : list Frame * bytes :=
  split_frames (length d) d.

(** The queue after the reader's put path has run once per frame, the
    first attempt being attempt number [n]. *)
Fixpoint submit_all (env : nat -> interference) (n : nat) (q : frame_queue)
  (fs : list Frame) : frame_queue :=
  match fs with
  | [] => q
  | f :: fs' => submit_all env (S n) (fst (reader_put (env n) q f)) fs'
  end.

(** The last [n] entries of a list. *)
Definition lastn {A : Type} (n : nat) (l : list A) : list A :=
  skipn (length l - n) l.

(** A byte string without start or end marker. *)
Definition marker_free (d : bytes) : Prop :=
  find SOI d = -1 /\ find EOI d = -1.

(** A stream of marker pairs: leading bytes [g0], then for each pair the
    frame [SOI ++ body ++ EOI] followed by the bytes up to the next one. *)
Fixpoint jpeg_stream (g0 : bytes) (pairs : list (bytes * bytes)) : bytes :=
  match pairs with
  | [] => g0
  | (body, gap) :: pairs' => g0 ++ SOI ++ body ++ EOI ++ jpeg_stream gap pairs'
  end.

Definition frame_of (p : bytes * bytes) : Frame := SOI ++ fst p ++ EOI.

Definition well_formed_pairs (g0 : bytes) (pairs : list (bytes * bytes))
  : Prop :=
  marker_free g0 /\
  Forall (fun p => marker_free (fst p) /\ marker_free (snd p)) pairs.

(** An end marker lies before the first start marker (or there is no start
    marker at all). *)
Definition end_before_start (d : bytes) : Prop :=
  find EOI d <> -1 /\ (find SOI d = -1 \/ find EOI d < find SOI d).

(* ===================================================================== *)
(** ** Competing consumers of the queue                                   *)
(* ===================================================================== *)

(** [get(timeout=0.5)] as the consumers call it: the oldest entry, or
    [None] for [queue.Empty] when nothing is there.  The queue serialises
    its operations, so a take is one atomic step on the shared content. *)
Definition take (q : frame_queue) : option (Frame * frame_queue) :=
  get_nowait q.

Inductive consumer : Type := ConsumerA | ConsumerB.

(** The shared queue and what each of two consumers has received so far. *)
Record contention : Type := {
  shared : frame_queue;
  got_a : list Frame;
  got_b : list Frame
}.

Definition take_step (c : consumer) (s : contention) : contention :=
  match take (shared s) with
  | None => s
  | Some (f, q') =>
      match c with
      | ConsumerA =>
          {| shared := q'; got_a := got_a s ++ [f]; got_b := got_b s |}
      | ConsumerB =>
          {| shared := q'; got_a := got_a s; got_b := got_b s ++ [f] |}
      end
  end.

(** The takes of both consumers in the order the queue serialises them. *)
Definition run_schedule (sched : list consumer) (s : contention)
  : contention :=
  fold_left (fun s c => take_step c s) sched s.

(** [l] is an order-preserving interleaving of [l1] and [l2]: every entry of
    [l] goes to exactly one of the two. *)
Inductive interleaving {A : Type} : list A -> list A -> list A -> Prop :=
| il_nil : interleaving [] [] []
| il_left x l1 l2 l : interleaving l1 l2 l -> interleaving (x :: l1) l2 (x :: l)
| il_right x l1 l2 l : interleaving l1 l2 l -> interleaving l1 (x :: l2) (x :: l).

(* ===================================================================== *)
(** ** The request handler ([CustomHTTPRequestHandler])                   *)
(* ===================================================================== *)

Definition CRLF : bytes := [x0d; x0a].

(** [s.encode('latin-1')] for header text. *)
Definition ascii_bytes (s : string) : bytes := list_byte_of_string s.

(** [str(n)] for a length. *)
Definition str_of_nat (n : nat) : string :=
  NilEmpty.string_of_uint (Nat.to_uint n).

(** [self.request_version != 'HTTP/0.9'] is what [http.server] tests before
    it buffers a status line or a header; a request line without a version
    reaches [do_GET] with the version ["HTTP/0.9"]. *)
Definition is_http09 (version : string) : bool :=
  String.eqb version "HTTP/0.9".

(** The request version, [_headers_buffer] of the handler and the bytes its
    [wfile] has sent. *)
Record handler_state : Type := {
  request_version : string;
  headers_buffer : bytes;
  wfile : bytes
}.

Definition handler_init (version : string) : handler_state :=
  {| request_version := version; headers_buffer := []; wfile := [] |}.

Definition send_header (keyword value : string) (h : handler_state)
  : handler_state :=
  if is_http09 (request_version h) then h
  else
    {| request_version := request_version h;
       headers_buffer :=
         headers_buffer h ++ ascii_bytes (keyword ++ ": " ++ value) ++ CRLF;
       wfile := wfile h |}.

(** [end_headers], with the flush it performs: nothing at all for
    HTTP/0.9; otherwise the blank line is appended to the buffer and the
    buffer is written and emptied.  [flush_ok] tells whether that write goes
    through; when it raises, the buffer keeps what it held.  The flag of the
    result is false when the write raised. *)
Definition end_headers (flush_ok : bool) (h : handler_state)
  : handler_state * bool :=
  if is_http09 (request_version h) then (h, true)
  else
    let buffer := headers_buffer h ++ CRLF in
    if flush_ok then
      ({| request_version := request_version h; headers_buffer := [];
          wfile := wfile h ++ buffer |}, true)
    else
      ({| request_version := request_version h; headers_buffer := buffer;
          wfile := wfile h |}, false).

Definition wfile_write (data : bytes) (h : handler_state) : handler_state :=
  {| request_version := request_version h;
     headers_buffer := headers_buffer h; wfile := wfile h ++ data |}.

(** One turn of the streaming loop: the stop flag at its head, what
    [get(timeout=0.5)] returned, and how many of the turn's socket writes go
    through before one raises ([BrokenPipeError] or another error; both
    leave the loop). *)
Record stream_tick : Type := {
  s_stop : bool;
  s_get : option Frame;
  s_writes_ok : nat
}.

(** Lines 141-146.  The writes of a turn are the boundary line, the flush
    of the part's headers (none for HTTP/0.9), the frame and the final CRLF;
    [ok] of them go through.  The flag tells whether all of them did. *)
Definition send_part (ok : nat) (frame : Frame) (h : handler_state)
  : handler_state * bool :=
  match ok with
  | O => (h, false)
  | S ok1 =>
      let h := wfile_write (MJPEG_BOUNDARY ++ CRLF) h in
      let h := send_header "Content-type" "image/jpeg" h in
      let h := send_header "Content-length" (str_of_nat (length frame)) h in
      let '(h', flushed) := end_headers (0 <? ok1)%nat h in
      if flushed then
        let ok2 := if is_http09 (request_version h) then ok1 else pred ok1 in
        match ok2 with
        | O => (h', false)
        | S ok3 =>
            let h' := wfile_write frame h' in
            match ok3 with
            | O => (h', false)
            | S _ => (wfile_write CRLF h', true)
            end
        end
      else (h', false)
  end.

(** Lines 138-155.  The result carries the frames taken so far and whether
    the loop has been left. *)
Fixpoint stream_loop (ticks : list stream_tick) (h : handler_state)
  (taken : list Frame) : handler_state * list Frame * bool :=
  match ticks with
  | [] => (h, taken, false)
  | t :: ticks' =>
      if s_stop t then (h, taken, true)
      else match s_get t with
           | None => stream_loop ticks' h taken
           | Some frame =>
               let '(h', sent) := send_part (s_writes_ok t) frame h in
               if sent then stream_loop ticks' h' (taken ++ [frame])
               else (h', taken ++ [frame], true)
           end
  end.

(** *** Text: Python [str] as a list of code points *)

Definition text := list N.

(** A literal of characters below 256. *)
Definition text_of_string (s : string) : text :=
  map N_of_ascii (list_ascii_of_string s).

(** [c.isspace()], the characters [str.strip()] removes. *)
Definition isspace (c : N) : bool :=
  ((9 <=? c) && (c <=? 13) || (28 <=? c) && (c <=? 32)
   || (c =? 133) || (c =? 160) || (c =? 5760)
   || (8192 <=? c) && (c <=? 8202)
   || (c =? 8232) || (c =? 8233) || (c =? 8239) || (c =? 8287)
   || (c =? 12288))%N.

Fixpoint lstrip (s : text) : text :=
  match s with
  | [] => []
  | c :: s' => if isspace c then lstrip s' else s
  end.

Definition rstrip (s : text) : text := rev (lstrip (rev s)).

(** [s.strip()] *)
Definition strip (s : text) : text := rstrip (lstrip s).

(** The truth value of a [str]: non-empty. *)
Definition nonempty (s : text) : bool :=
  match s with [] => false | _ :: _ => true end.

Definition byte_of_N (n : N) : byte := byte_of_ascii (ascii_of_N n).


(** The UTF-8 bytes of one code point; [None] for a surrogate, on which
    [encode] raises [UnicodeEncodeError]. *)
Definition utf8_char (c : N) : option bytes :=
  if (c <? 128)%N then Some [byte_of_N c]
  else if (c <? 2048)%N then
    Some [byte_of_N (192 + c / 64); byte_of_N (128 + c mod 64)]
  else if (c <? 65536)%N then
    if (55296 <=? c)%N && (c <=? 57343)%N then None
    else Some [byte_of_N (224 + c / 4096);
               byte_of_N (128 + (c / 64) mod 64);
               byte_of_N (128 + c mod 64)]
  else if (c <? 1114112)%N then
    Some [byte_of_N (240 + c / 262144);
          byte_of_N (128 + (c / 4096) mod 64);
          byte_of_N (128 + (c / 64) mod 64);
          byte_of_N (128 + c mod 64)]
  else None.

(** [s.encode('utf-8')]; [None] when it raises. *)
Fixpoint encode_utf8 (s : text) : option bytes :=
  match s with
  | [] => Some []
  | c :: s' =>
      match utf8_char c, encode_utf8 s' with
      | Some b, Some r => Some (b ++ r)
      | _, _ => None
      end
  end.

(** [self.wfile.write(s.encode('utf-8'))]: when encoding raises, nothing is
    written. *)
Definition write_text (s : text) (h : handler_state) : handler_state :=
  match encode_utf8 s with
  | Some body => wfile_write body h
  | None => h
  end.

Section Handler.

(** What [send_response(code)] appends to the headers buffer of a request
    that carries a version: the status line for [code] and the Server and
    Date headers of [http.server]. *)
Variable response_head : Z -> bytes.

(** What [send_error(code)] sends for a request of the given version. *)
Variable error_response : string -> Z -> bytes.

(** The landing page. *)
Variable html_content : text.

Definition send_response (code : Z) (h : handler_state) : handler_state :=
  if is_http09 (request_version h) then h
  else
    {| request_version := request_version h;
       headers_buffer := headers_buffer h ++ response_head code;
       wfile := wfile h |}.

Definition send_error (code : Z) (h : handler_state) : handler_state :=
  wfile_write (error_response (request_version h) code) h.

(** [do_GET] for a request of the given version.  [latest_ocr_result] is
    the register as the handler reads it; [ticks] drive the streaming loop
    when the path asks for the stream.  Outside that loop the writes to the
    client go through. *)
Definition do_GET (version path : string) (latest_ocr_result : text)
  (ticks : list stream_tick) : handler_state * list Frame * bool :=
  let h := handler_init version in
  if String.eqb path "/" then
    let h := send_response 200 h in
    let h := send_header "Content-type" "text/html" h in
    let h := fst (end_headers true h) in
    (write_text html_content h, [], true)
  else if String.eqb path "/stream.mjpeg" then
    let h := send_response 200 h in
    let h := send_header "Content-type"
               ("multipart/x-mixed-replace; boundary="
                ++ string_of_list_byte MJPEG_BOUNDARY) h in
    let h := send_header "Cache-Control" "no-cache, private" h in
    let h := send_header "Pragma" "no-cache" h in
    let h := send_header "Connection" "keep-alive" h in
    let h := fst (end_headers true h) in
    stream_loop ticks h []
  else if String.eqb path "/ocr.txt" then
    let h := send_response 200 h in
    let h := send_header "Content-type" "text/plain" h in
    let h := send_header "Cache-Control"
               "no-cache, no-store, must-revalidate" h in
    let h := send_header "Pragma" "no-cache" h in
    let h := send_header "Expires" "0" h in
    let h := fst (end_headers true h) in
    (write_text latest_ocr_result h, [], true)
  else
    let h := send_error 404 h in
    (fst (end_headers true h), [], true).

End Handler.

(* ===================================================================== *)
(** ** The sampling consumer ([ocr_thread_func])                          *)
(* ===================================================================== *)

(** What lines 207-211 yield on a frame: the text of
    [pytesseract.image_to_string], or an exception from decoding,
    conversion or the engine. *)
Inductive ocr_outcome : Type :=
| Recognised (text : text)
| OcrFailed.

(** One turn of the loop: the stop flag at its head, what
    [get(timeout=0.5)] returned, and what recognition answers if the frame
    is handed to it. *)
Record ocr_tick : Type := {
  o_stop : bool;
  o_get : option Frame;
  o_engine : ocr_outcome
}.

(** [frame_count], the shared register [latest_ocr_result], and two
    records of the run: the frames taken and the frames handed to
    recognition, each with the count it was taken at. *)
Record ocr_state : Type := {
  frame_count : Z;
  latest_ocr_result : text;
  frames_taken : list Frame;
  recognitions : list (Z * Frame)
}.

Definition ocr_init : ocr_state :=
  {| frame_count := 0; latest_ocr_result := [];
     frames_taken := []; recognitions := [] |}.

(** Lines 212-216: the register after recognition answered. *)
Definition publish (o : ocr_outcome) (latest : text) : text :=
  match o with
  | Recognised text =>
      if nonempty (strip text) then strip text else latest
  | OcrFailed => latest
  end.

(** Lines 202-219: the body of the loop once a frame has been taken. *)
Definition ocr_frame (frame : Frame) (o : ocr_outcome) (st : ocr_state)
  : ocr_state :=
  let count := frame_count st + 1 in
  if count mod OCR_FRAME_INTERVAL =? 0 then
    {| frame_count := count;
       latest_ocr_result := publish o (latest_ocr_result st);
       frames_taken := frames_taken st ++ [frame];
       recognitions := recognitions st ++ [(count, frame)] |}
  else
    {| frame_count := count;
       latest_ocr_result := latest_ocr_result st;
       frames_taken := frames_taken st ++ [frame];
       recognitions := recognitions st |}.

(** Lines 198-227.  The flag tells whether the loop has been left. *)
Fixpoint ocr_thread_func (ticks : list ocr_tick) (st : ocr_state)
  : ocr_state * bool :=
  match ticks with
  | [] => (st, false)
  | t :: ticks' =>
      if o_stop t then (st, true)
      else match o_get t with
           | None => ocr_thread_func ticks' st
           | Some frame => ocr_thread_func ticks' (ocr_frame frame (o_engine t) st)
           end
  end.


(** Every k-th entry of a list whose first entry has number [count + 1]. *)
Fixpoint every_kth (k count : Z) (frames : list Frame) : list (Z * Frame) :=
  match frames with
  | [] => []
  | f :: frames' =>
      if (count + 1) mod k =? 0
      then (count + 1, f) :: every_kth k (count + 1) frames'
      else every_kth k (count + 1) frames'
  end.

(* ===================================================================== *)
(** ** The web server thread ([web_server_thread_func])                   *)
(* ===================================================================== *)

(** Where the thread is: before the server is built, inside
    [httpd.serve_forever()], at the head of the
    [while not stop_event.is_set()] loop that follows it, blocked in that
    loop's [httpd.handle_request()], or past the [finally] block. *)
Inductive web_pc : Type :=
| WebStart
| InServeForever
| AtLoopHead
| InHandleRequest
| WebFinished.

(** One poll interval as the thread sees it: the stop flag, whether
    building the server raised, whether [httpd.shutdown()] has been
    requested, and whether a request arrived. *)
Record web_tick : Type := {
  w_stop : bool;
  w_bind_fails : bool;
  w_shutdown_requested : bool;
  w_request : bool
}.

(** One step of lines 179-193.  [serve_forever] polls the server's own
    shutdown request and nothing else; [handle_request], called without a
    timeout, returns once a request has been handled. *)
Definition web_server_step (t : web_tick) (pc : web_pc) : web_pc :=
  match pc with
  | WebStart => if w_bind_fails t then WebFinished else InServeForever
  | InServeForever =>
      if w_shutdown_requested t then AtLoopHead else InServeForever
  | AtLoopHead => if w_stop t then WebFinished else InHandleRequest
  | InHandleRequest => if w_request t then AtLoopHead else InHandleRequest
  | WebFinished => WebFinished
  end.

Definition web_server_thread_func (ticks : list web_tick) (pc : web_pc)
  : web_pc :=
  fold_left (fun pc t => web_server_step t pc) ticks pc.

(** The program contains no call of [httpd.shutdown()]: in its runs the
    request is never made. *)
Definition program_run (ticks : list web_tick) : Prop :=
  Forall (fun t => w_shutdown_requested t = false) ticks.

(* ===================================================================== *)
(** ** Teardown of the external processes ([main], lines 354-387)         *)
(* ===================================================================== *)










(** The bytes after the last pair of a stream. *)
Fixpoint trailing (g0 : bytes) (pairs : list (bytes * bytes)) : bytes :=
  match pairs with
  | [] => g0
  | (_, gap) :: pairs' => trailing gap pairs'
  end.

(** *** The wire format the interface description asks for *)

(** One part of the multipart body: boundary line, image content type,
    content length, blank line, the frame, CRLF. *)
Definition expected_part (frame : Frame) : bytes :=
  ascii_bytes "--FRAME--" ++ CRLF
  ++ ascii_bytes "Content-type: image/jpeg" ++ CRLF
  ++ ascii_bytes "Content-length: "
  ++ ascii_bytes (str_of_nat (length frame)) ++ CRLF
  ++ CRLF
  ++ frame
  ++ CRLF.

(** The head of the stream response, after what [send_response(200)]
    contributes. *)
Definition expected_stream_headers : bytes :=
  ascii_bytes "Content-type: multipart/x-mixed-replace; boundary=--FRAME--"
  ++ CRLF
  ++ ascii_bytes "Cache-Control: no-cache, private" ++ CRLF
  ++ ascii_bytes "Pragma: no-cache" ++ CRLF
  ++ ascii_bytes "Connection: keep-alive" ++ CRLF
  ++ CRLF.


(** One part as a request without a version (HTTP/0.9) gets it: no header
    is buffered for such a request, so the frame follows the boundary
    line. *)
Definition bare_part (frame : Frame) : bytes :=
  MJPEG_BOUNDARY ++ CRLF ++ frame ++ CRLF.

(** The part the handler writes for a request of the given version. *)
Definition part_for (version : string) (frame : Frame) : bytes :=
  if is_http09 version then bare_part frame else expected_part frame.

(** What precedes the parts of the stream for a request of the given
    version. *)
Definition stream_head_for (response_head : Z -> bytes) (version : string)
  : bytes :=
  if is_http09 version then []
  else response_head 200 ++ expected_stream_headers.



(** The frames the ticks of a streaming loop hand out. *)
Definition frames_got (ticks : list stream_tick) : list Frame :=
  flat_map (fun t => match s_get t with Some f => [f] | None => [] end) ticks.

(** A turn that neither sees the stop signal nor loses the client. *)
Definition turn_goes_through (t : stream_tick) : Prop :=
  s_stop t = false /\ (4 <= s_writes_ok t)%nat.

(** A turn that ends the streaming loop: the stop signal is seen, or a
    frame was taken and a write to the client failed. *)
Definition turn_leaves (t : stream_tick) : Prop :=
  s_stop t = true \/ (s_get t <> None /\ (s_writes_ok t < 4)%nat).

(* ===================================================================== *)
(** ** Further notions used to state properties of the workers           *)
(* ===================================================================== *)

(** The reader's state after one non-empty chunk has been read and the
    extraction loop has run on the accumulated bytes. *)
Definition after_chunk (env : nat -> interference) (st : reader_state)
  (c : bytes) : reader_state :=
  {| jpeg_data := snd (split (jpeg_data st ++ c));
     queue := submit_all env (length (submitted st)) (queue st)
                (fst (split (jpeg_data st ++ c)));
     submitted := submitted st ++ fst (split (jpeg_data st ++ c)) |}.

(** A turn of the reader's outer loop that ends it: the stop signal is
    seen, the source is closed, or the read raises. *)
Definition ends_reader (t : reader_tick) : Prop :=
  stop_seen t = true \/ read t = Chunk [] \/ read t = ReadError.

(** Bytes skipped before each frame, and the frames, laid out in order. *)
Fixpoint weave (gaps : list bytes) (fs : list Frame) : bytes :=
  match gaps, fs with
  | g :: gaps', f :: fs' => g ++ f ++ weave gaps' fs'
  | _, _ => []
  end.

(** A frame starts with the start marker, ends with the end marker, and
    holds no end marker before that one. *)
Definition delimited (f : Frame) : Prop :=
  exists body, f = SOI ++ body ++ EOI /\
               find SOI f = 0 /\
               find EOI f = Z.of_nat (length body) + 2.

(** Two runs of the sampling loop that differ at most in what recognition
    answers. *)
Definition same_frames (ticks ticks' : list ocr_tick) : Prop :=
  Forall2 (fun t t' => o_stop t = o_stop t' /\ o_get t = o_get t')
    ticks ticks'.

(** *** Shutdown ([main], lines 334-400) *)










(* ===================================================================== *)
(** * Properties                                                          *)
(* ===================================================================== *)

(** ** Searching and slicing *)

Lemma startswith_app (sub d c : bytes) :
  startswith sub d = true -> startswith sub (d ++ c) = true.
Proof.
  revert d; induction sub as [|a sub IH]; intros [|b d]; simpl; auto.
  - discriminate.
  - intros H. apply andb_true_iff in H as [H1 H2].
    now rewrite H1, (IH _ H2).
Qed.

Lemma startswith_length (sub d : bytes) :
  startswith sub d = true -> (length sub <= length d)%nat.
Proof.
  revert d; induction sub as [|a sub IH]; intros [|b d]; simpl;
    try lia; try discriminate.
  intros H. apply andb_true_iff in H as [_ H2]. apply IH in H2. lia.
Qed.

(** An occurrence that only appears once more bytes are appended reaches
    past the end of the old bytes. *)
Lemma startswith_straddles (sub d c : bytes) :
  startswith sub d = false -> startswith sub (d ++ c) = true ->
  (length d < length sub)%nat.
Proof.
  revert d; induction sub as [|a sub IH]; intros [|b d]; simpl;
    try lia; try discriminate.
  intros H1 H2. apply andb_true_iff in H2 as [H2 H3].
  rewrite H2 in H1. simpl in H1. specialize (IH _ H1 H3). lia.
Qed.

Lemma find_from_range (sub d : bytes) (i : Z) :
  0 <= i ->
  find_from sub d i = -1 \/
  (i <= find_from sub d i /\
   find_from sub d i + Z.of_nat (length sub) <= i + Z.of_nat (length d)).
Proof.
  revert i; induction d as [|b d IH]; intros i Hi; simpl.
  - destruct (startswith sub []) eqn:E; auto.
    right. apply startswith_length in E. simpl in E. lia.
  - destruct (startswith sub (b :: d)) eqn:E.
    + right. apply startswith_length in E. simpl in E. lia.
    + destruct (IH (i + 1)) as [H|H]; [lia| auto |]. right. lia.
Qed.

Lemma find_range (sub d : bytes) :
  find sub d = -1 \/
  (0 <= find sub d /\
   find sub d + Z.of_nat (length sub) <= Z.of_nat (length d)).
Proof. unfold find. destruct (find_from_range sub d 0); auto; lia. Qed.

(** The offset only shifts the answer. *)
Lemma find_from_shift (sub d : bytes) (i : Z) :
  0 <= i ->
  find_from sub d i = if find sub d =? -1 then -1 else find sub d + i.
Proof.
  unfold find. revert i. induction d as [|b d IH]; intros i Hi; simpl.
  - destruct (startswith sub []); simpl; auto.
  - destruct (startswith sub (b :: d)); simpl; auto.
    rewrite (IH (i + 1)), (IH 1) by lia.
    destruct (find_from sub d 0 =? -1) eqn:E; simpl; auto.
    destruct (find_from_range sub d 0) as [H|H]; [lia| |].
    + apply Z.eqb_neq in E. contradiction.
    + destruct (find_from sub d 0 + 1 =? -1) eqn:E2; [apply Z.eqb_eq in E2|]; lia.
Qed.

(** An occurrence already found stays the first one when bytes are
    appended. *)
Lemma find_from_app_found (sub d c : bytes) (i : Z) :
  0 <= i -> find_from sub d i <> -1 ->
  find_from sub (d ++ c) i = find_from sub d i.
Proof.
  revert i; induction d as [|b d IH]; intros i Hi; simpl.
  - destruct (startswith sub []) eqn:E; [|congruence].
    intros _. destruct sub; [|discriminate]. now destruct c.
  - destruct (startswith sub (b :: d)) eqn:E.
    + intros _. change (b :: d ++ c) with ((b :: d) ++ c).
      now rewrite (startswith_app _ _ c E).
    + intros H. destruct (startswith sub (b :: d ++ c)) eqn:E2.
      * exfalso. change (b :: d ++ c) with ((b :: d) ++ c) in E2.
        pose proof (startswith_straddles _ _ _ E E2) as Hlt.
        destruct (find_from_range sub d (i + 1)) as [F|F]; [lia|congruence|].
        simpl in Hlt. lia.
      * apply IH; [lia|assumption].
Qed.

Lemma find_app_found (sub d c : bytes) :
  find sub d <> -1 -> find sub (d ++ c) = find sub d.
Proof. apply find_from_app_found. lia. Qed.

(** An occurrence that was not there before the append reaches past the
    end of the old bytes. *)
Lemma find_from_app_fresh (sub d c : bytes) (i : Z) :
  0 <= i -> find_from sub d i = -1 ->
  find_from sub (d ++ c) i = -1 \/
  i + Z.of_nat (length d) < find_from sub (d ++ c) i + Z.of_nat (length sub).
Proof.
  revert i; induction d as [|b d IH]; intros i Hi; simpl.
  - destruct (startswith sub []) eqn:E; [lia|]. intros _.
    destruct (find_from_range sub c i Hi) as [H|H]; auto. right.
    destruct sub; [discriminate|]. simpl. lia.
  - destruct (startswith sub (b :: d)) eqn:E; [lia|]. intros H.
    destruct (startswith sub (b :: d ++ c)) eqn:E2.
    + right. change (b :: d ++ c) with ((b :: d) ++ c) in E2.
      pose proof (startswith_straddles _ _ _ E E2) as Hlt. simpl in Hlt. lia.
    + destruct (IH (i + 1)) as [F|F]; [lia|assumption|auto|]. right. lia.
Qed.

Lemma find_from_cons (sub : bytes) (b : byte) (d : bytes) (i : Z) :
  find_from sub (b :: d) i =
  if startswith sub (b :: d) then i else find_from sub d (i + 1).
Proof. reflexivity. Qed.

(** Skipping bytes that hold no occurrence of a two-byte marker, when the
    bytes after them start with the marker's first byte. *)
Lemma find_from_skip (x y : byte) (g rest : bytes) (i : Z) :
  x <> y -> 0 <= i -> find [x; y] g = -1 ->
  find_from [x; y] (g ++ x :: rest) i =
  find_from [x; y] (x :: rest) (i + Z.of_nat (length g)).
Proof.
  intros Hxy. revert i. induction g as [|a g IH]; intros i Hi Hg.
  - simpl. now rewrite Z.add_0_r.
  - unfold find in Hg. rewrite find_from_cons in Hg.
    destruct (startswith [x; y] (a :: g)) eqn:E; [lia|].
    rewrite find_from_shift in Hg by lia.
    destruct (find [x; y] g =? -1) eqn:F;
      [apply Z.eqb_eq in F | destruct (find_range [x; y] g); lia].
    change ((a :: g) ++ x :: rest) with (a :: (g ++ x :: rest)).
    rewrite find_from_cons.
    assert (E2 : startswith [x; y] (a :: g ++ x :: rest) = false).
    { destruct g as [|a2 g]; simpl in *.
      - assert (Byte.eqb y x = false) as ->.
        { destruct (Byte.eqb y x) eqn:Q; auto.
          apply Byte.byte_dec_bl in Q. congruence. }
        now rewrite andb_false_r.
      - exact E. }
    rewrite E2. rewrite IH by (lia || assumption).
    f_equal. rewrite length_cons. lia.
Qed.

Lemma slice_middle (a m r : bytes) :
  slice (a ++ m ++ r) (Z.of_nat (length a))
        (Z.of_nat (length a) + Z.of_nat (length m)) = m.
Proof.
  unfold slice, clamp_index. rewrite !length_app.
  destruct (Z.ltb_spec (Z.of_nat (length a)) 0); [lia|].
  destruct (Z.ltb_spec (Z.of_nat (length a) + Z.of_nat (length m)) 0); [lia|].
  rewrite !Z.min_l by lia.
  replace (Z.to_nat (Z.of_nat (length a) + Z.of_nat (length m)
                     - Z.of_nat (length a))) with (length m) by lia.
  rewrite Nat2Z.id, skipn_app, skipn_all, Nat.sub_diag. simpl.
  rewrite firstn_app, firstn_all, Nat.sub_diag. simpl. apply app_nil_r.
Qed.

Lemma slice_from_app (a r : bytes) :
  slice_from (a ++ r) (Z.of_nat (length a)) = r.
Proof.
  unfold slice_from, clamp_index. rewrite length_app.
  destruct (Z.ltb_spec (Z.of_nat (length a)) 0); [lia|].
  rewrite Z.min_l by lia.
  now rewrite Nat2Z.id, skipn_app, skipn_all, Nat.sub_diag.
Qed.

(** Slices that end inside the old bytes do not see appended ones. *)
Lemma slice_app_within (d c : bytes) (lo hi : Z) :
  0 <= lo -> 0 <= hi <= Z.of_nat (length d) ->
  slice (d ++ c) lo hi = slice d lo hi.
Proof.
  intros Hlo Hhi. unfold slice, clamp_index. rewrite length_app.
  destruct (Z.ltb_spec lo 0); [lia|]. destruct (Z.ltb_spec hi 0); [lia|].
  rewrite (Z.min_l hi) by lia. rewrite (Z.min_l hi) by lia.
  destruct (Z.le_gt_cases lo (Z.of_nat (length d))).
  - rewrite !(Z.min_l lo) by lia.
    rewrite skipn_app, firstn_app, length_skipn.
    replace (Z.to_nat (hi - lo) - (length d - Z.to_nat lo))%nat with 0%nat by lia.
    simpl. apply app_nil_r.
  - replace (Z.to_nat (hi - Z.min lo (Z.of_nat (length d + length c))))
      with 0%nat by lia.
    replace (Z.to_nat (hi - Z.min lo (Z.of_nat (length d)))) with 0%nat by lia.
    reflexivity.
Qed.

Lemma slice_from_app_within (d c : bytes) (lo : Z) :
  0 <= lo <= Z.of_nat (length d) ->
  slice_from (d ++ c) lo = slice_from d lo ++ c.
Proof.
  intros Hlo. unfold slice_from, clamp_index. rewrite length_app.
  destruct (Z.ltb_spec lo 0); [lia|].
  rewrite !Z.min_l by lia. rewrite skipn_app.
  replace (Z.to_nat lo - length d)%nat with 0%nat by lia. reflexivity.
Qed.

Lemma slice_from_length (d : bytes) (lo : Z) :
  0 < lo -> d <> [] -> (length (slice_from d lo) < length d)%nat.
Proof.
  intros Hlo Hd. unfold slice_from, clamp_index.
  destruct (Z.ltb_spec lo 0); [lia|]. rewrite length_skipn.
  destruct d; [contradiction|]. simpl length. lia.
Qed.

(** ** The inner loop of the demuxer *)

Lemma can_extract_true (d : bytes) :
  can_extract d = true ->
  0 <= find SOI d /\ find SOI d < find EOI d /\
  find EOI d + 2 <= Z.of_nat (length d).
Proof.
  unfold can_extract. intros H.
  apply andb_true_iff in H as [H H3]. apply andb_true_iff in H as [H1 H2].
  apply negb_true_iff, Z.eqb_neq in H1. apply negb_true_iff, Z.eqb_neq in H2.
  apply Z.ltb_lt in H3.
  destruct (find_range SOI d) as [F|F]; [contradiction|].
  destruct (find_range EOI d) as [G|G]; [contradiction|].
  simpl in F, G. lia.
Qed.

Lemma can_extract_shrinks (d : bytes) :
  can_extract d = true ->
  (length (slice_from d (find EOI d + 2)) < length d)%nat.
Proof.
  intros H. apply can_extract_true in H. apply slice_from_length; [lia|].
  intros ->. simpl in H. lia.
Qed.

Lemma split_frames_fuel (fuel1 fuel2 : nat) (d : bytes) :
  (length d <= fuel1)%nat -> (length d <= fuel2)%nat ->
  split_frames fuel1 d = split_frames fuel2 d.
Proof.
  revert fuel2 d. induction fuel1 as [|fuel1 IH]; intros fuel2 d H1 H2.
  - destruct d; [|simpl in H1; lia]. now destruct fuel2.
  - destruct fuel2 as [|fuel2].
    + destruct d; [|simpl in H2; lia]. reflexivity.
    + simpl. destruct (can_extract d) eqn:E; [|reflexivity].
      pose proof (can_extract_shrinks d E).
      rewrite (IH fuel2) by lia. reflexivity.
Qed.

(** One turn of the loop, with the fuel out of the way. *)
Lemma split_unfold (d : bytes) :
  split d =
  if can_extract d then
    (slice d (find SOI d) (find EOI d + 2)
       :: fst (split (slice_from d (find EOI d + 2))),
     snd (split (slice_from d (find EOI d + 2))))
  else ([], d).
Proof.
  unfold split. destruct d as [|b d]; [reflexivity|].
  remember (b :: d) as d' eqn:Hd'. assert (Hlen : length d' = S (length d))
    by (subst; reflexivity).
  rewrite Hlen. simpl. destruct (can_extract d') eqn:E; [|reflexivity].
  pose proof (can_extract_shrinks d' E).
  rewrite (split_frames_fuel (length d)
             (length (slice_from d' (find EOI d' + 2)))) by lia.
  now destruct (split_frames _ _).
Qed.

(** The loop stops only when its guard is false. *)
Lemma split_done (d : bytes) : can_extract (snd (split d)) = false.
Proof.
  remember (length d) as n eqn:Hn. revert d Hn.
  induction n as [n IH] using lt_wf_ind. intros d Hn.
  rewrite split_unfold. destruct (can_extract d) eqn:E; [|exact E].
  cbn [snd]. pose proof (can_extract_shrinks d E).
  apply (IH (length (slice_from d (find EOI d + 2)))); subst; auto.
Qed.

(** Cutting frames out of [d ++ c] in one go is cutting them out of [d]
    and going on with what is left followed by [c]. *)
Lemma split_app (c d : bytes) :
  split (d ++ c) =
  (fst (split d) ++ fst (split (snd (split d) ++ c)),
   snd (split (snd (split d) ++ c))).
Proof.
  remember (length d) as n eqn:Hn. revert d Hn.
  induction n as [n IH] using lt_wf_ind. intros d Hn.
  rewrite (split_unfold d). destruct (can_extract d) eqn:E.
  - pose proof (can_extract_true d E) as (H1 & H2 & H3).
    pose proof (can_extract_shrinks d E) as Hs.
    assert (Fs : find SOI (d ++ c) = find SOI d)
      by (apply find_app_found; lia).
    assert (Fe : find EOI (d ++ c) = find EOI d)
      by (apply find_app_found; lia).
    rewrite (split_unfold (d ++ c)).
    assert (E' : can_extract (d ++ c) = true)
      by (unfold can_extract in *; now rewrite Fs, Fe).
    rewrite E', Fs, Fe.
    rewrite slice_app_within, slice_from_app_within by lia.
    cbn [fst snd].
    rewrite (IH (length (slice_from d (find EOI d + 2)))) by (subst; lia || auto).
    reflexivity.
  - cbn [fst snd]. now destruct (split (d ++ c)).
Qed.

(** ** The put path keeps the queue within its capacity *)

Lemma consumers_take_length (k : nat) (q : frame_queue) :
  (length (consumers_take k q) <= length q)%nat.
Proof. unfold consumers_take. rewrite length_skipn. lia. Qed.

Lemma reader_put_bounded (i : interference) (q : frame_queue) (f : Frame) :
  (length q <= FRAME_BUFFER_SIZE)%nat ->
  (length (fst (reader_put i q f)) <= FRAME_BUFFER_SIZE)%nat /\
  snd (reader_put i q f) <> PutRaised.
Proof.
  intros Hq. unfold reader_put, put_timeout.
  destruct (Nat.ltb_spec (length q) FRAME_BUFFER_SIZE).
  - simpl. rewrite length_app. simpl. split; [lia|discriminate].
  - pose proof (consumers_take_length (during_wait i) q) as Hw.
    destruct (Nat.ltb_spec (length (consumers_take (during_wait i) q))
                FRAME_BUFFER_SIZE).
    + simpl. rewrite length_app. simpl. split; [lia|discriminate].
    + pose proof (consumers_take_length (before_get i)
                    (consumers_take (during_wait i) q)) as Hg.
      destruct (consumers_take (before_get i) _) as [|f0 q2] eqn:Eq; simpl.
      * split; [lia|discriminate].
      * pose proof (consumers_take_length (before_put i) q2) as Hp.
        simpl in Hg. unfold put_nowait.
        destruct (Nat.ltb_spec (length (consumers_take (before_put i) q2))
                    FRAME_BUFFER_SIZE); simpl.
        -- rewrite length_app. simpl. split; [lia|discriminate].
        -- lia.
Qed.

Lemma submit_all_bounded env (fs : list Frame) :
  forall n q, (length q <= FRAME_BUFFER_SIZE)%nat ->
  (length (submit_all env n q fs) <= FRAME_BUFFER_SIZE)%nat.
Proof.
  induction fs as [|f fs IH]; intros n q Hq; simpl; auto.
  apply IH. now apply reader_put_bounded.
Qed.

Lemma submit_all_app env (fs1 fs2 : list Frame) :
  forall n q,
  submit_all env n q (fs1 ++ fs2) =
  submit_all env (n + length fs1) (submit_all env n q fs1) fs2.
Proof.
  induction fs1 as [|f fs1 IH]; intros n q; simpl.
  - now rewrite Nat.add_0_r.
  - rewrite IH. f_equal. lia.
Qed.

(** The loop in terms of [split_frames]: it never raises, submits the
    frames cut out and keeps the bytes left. *)
Lemma extract_frames_split env (fuel : nat) :
  forall st, (length (queue st) <= FRAME_BUFFER_SIZE)%nat ->
  extract_frames env fuel st =
  ({| jpeg_data := snd (split_frames fuel (jpeg_data st));
      queue := submit_all env (length (submitted st)) (queue st)
                 (fst (split_frames fuel (jpeg_data st)));
      submitted := submitted st ++ fst (split_frames fuel (jpeg_data st)) |},
   false).
Proof.
  induction fuel as [|fuel IH]; intros [d q sub] Hq; simpl in *.
  - now rewrite app_nil_r.
  - destruct (can_extract d) eqn:E; [|simpl; now rewrite app_nil_r].
    pose proof (reader_put_bounded (env (length sub)) q
                  (slice d (find SOI d) (find EOI d + 2)) Hq) as [Hb Hr].
    destruct (reader_put _ q _) as [q' o] eqn:Ep. simpl in Hb, Hr.
    destruct (split_frames fuel _) as [fs r] eqn:Es.
    assert (Hgo : extract_frames env fuel
                    {| jpeg_data := slice_from d (find EOI d + 2);
                       queue := q';
                       submitted := sub ++ [slice d (find SOI d) (find EOI d + 2)] |}
                  = ({| jpeg_data := r;
                        queue := submit_all env (S (length sub)) q' fs;
                        submitted := sub ++ slice d (find SOI d) (find EOI d + 2) :: fs |},
                     false)).
    { rewrite IH by exact Hb. simpl. rewrite Es. simpl.
      rewrite length_app, <- app_assoc. simpl.
      now rewrite Nat.add_1_r. }
    cbn [fst snd submit_all]. rewrite Ep. cbn [fst].
    destruct o; try exact Hgo. congruence.
Qed.

(** ** The reader over a whole source *)

Lemma reader_feed env (chunks : list bytes) :
  forall c st, (length (queue st) <= FRAME_BUFFER_SIZE)%nat ->
  Forall (fun c => c <> []) (c :: chunks) ->
  mjpeg_frame_reader env (feed (c :: chunks)) st =
  {| jpeg_data := snd (split (jpeg_data st ++ concat (c :: chunks)));
     queue := submit_all env (length (submitted st)) (queue st)
                (fst (split (jpeg_data st ++ concat (c :: chunks))));
     submitted :=
       submitted st ++ fst (split (jpeg_data st ++ concat (c :: chunks))) |}.
Proof.
  induction chunks as [|c2 chunks IH]; intros c st Hq Hne;
    inversion Hne as [|? ? Hc Hne']; subst.
  - simpl. destruct c as [|b c]; [contradiction|].
    rewrite extract_frames_split by exact Hq. simpl.
    rewrite app_nil_r. reflexivity.
  - change (mjpeg_frame_reader env (feed (c :: c2 :: chunks)) st)
      with (if stop_seen {| stop_seen := false; read := Chunk c |} then st
            else match c with
                 | [] => st
                 | _ :: _ =>
                     let d := jpeg_data st ++ c in
                     let '(st', raised) :=
                       extract_frames env (length d)
                         {| jpeg_data := d; queue := queue st;
                            submitted := submitted st |} in
                     if raised then st'
                     else mjpeg_frame_reader env (feed (c2 :: chunks)) st'
                 end).
    cbn [stop_seen]. destruct c as [|b c]; [contradiction|].
    cbv zeta. rewrite extract_frames_split by exact Hq.
    cbn [jpeg_data queue submitted].
    rewrite IH; cbn [jpeg_data queue submitted]; auto.
    + change (split_frames (length (jpeg_data st ++ b :: c))
                (jpeg_data st ++ b :: c))
        with (split (jpeg_data st ++ b :: c)).
      change (concat ((b :: c) :: c2 :: chunks))
        with ((b :: c) ++ concat (c2 :: chunks)).
      rewrite (app_assoc (jpeg_data st)).
      rewrite (split_app (concat (c2 :: chunks)) (jpeg_data st ++ b :: c)).
      cbn [fst snd]. f_equal.
      * now rewrite submit_all_app, length_app.
      * now rewrite app_assoc.
    + now apply submit_all_bounded.
Qed.

(** ** Streams of well-formed marker pairs *)

Lemma find_SOI_stream (g rest : bytes) :
  find SOI g = -1 -> find SOI (g ++ SOI ++ rest) = Z.of_nat (length g).
Proof.
  intros Hg. unfold find, SOI in *. simpl app.
  rewrite find_from_skip by (discriminate || lia || assumption).
  reflexivity.
Qed.

Lemma find_EOI_stream (g body rest : bytes) :
  find EOI g = -1 -> find EOI body = -1 ->
  find EOI (g ++ SOI ++ body ++ EOI ++ rest) =
  Z.of_nat (length g) + 2 + Z.of_nat (length body).
Proof.
  intros Hg Hb. unfold find, SOI, EOI in *. simpl app.
  rewrite find_from_skip by (discriminate || lia || assumption).
  rewrite find_from_cons.
  replace (startswith [xff; xd9] (xff :: xd8 :: body ++ xff :: xd9 :: rest))
    with false by reflexivity.
  rewrite find_from_cons.
  replace (startswith [xff; xd9] (xd8 :: body ++ xff :: xd9 :: rest))
    with false by reflexivity.
  rewrite find_from_skip by (discriminate || lia || assumption).
  rewrite find_from_cons.
  replace (startswith [xff; xd9] (xff :: xd9 :: rest)) with true by reflexivity.
  lia.
Qed.

Lemma split_jpeg_stream (pairs : list (bytes * bytes)) :
  forall g0, well_formed_pairs g0 pairs ->
  split (jpeg_stream g0 pairs) = (map frame_of pairs, trailing g0 pairs).
Proof.
  induction pairs as [|[body gap] pairs IH]; intros g0 [[Hs He] Hp].
  - simpl. rewrite split_unfold. unfold can_extract. rewrite Hs. reflexivity.
  - inversion Hp as [|? ? [[Hbs Hbe] Hg] Hp']; subst. simpl in Hbs, Hbe, Hg.
    change (jpeg_stream g0 ((body, gap) :: pairs))
      with (g0 ++ SOI ++ body ++ EOI ++ jpeg_stream gap pairs).
    rewrite split_unfold.
    pose proof (find_SOI_stream g0 (body ++ EOI ++ jpeg_stream gap pairs) Hs) as Fs.
    pose proof (find_EOI_stream g0 body (jpeg_stream gap pairs) He Hbe) as Fe.
    unfold can_extract. rewrite Fs, Fe.
    replace (negb (Z.of_nat (length g0) =? -1)) with true
      by (symmetry; apply negb_true_iff, Z.eqb_neq; lia).
    replace (negb (Z.of_nat (length g0) + 2 + Z.of_nat (length body) =? -1))
      with true by (symmetry; apply negb_true_iff, Z.eqb_neq; lia).
    replace (Z.of_nat (length g0) <?
             Z.of_nat (length g0) + 2 + Z.of_nat (length body)) with true
      by (symmetry; apply Z.ltb_lt; lia).
    cbn [andb].
    assert (Hfr : slice (g0 ++ SOI ++ body ++ EOI ++ jpeg_stream gap pairs)
                    (Z.of_nat (length g0))
                    (Z.of_nat (length g0) + 2 + Z.of_nat (length body) + 2)
                  = SOI ++ body ++ EOI).
    { replace (g0 ++ SOI ++ body ++ EOI ++ jpeg_stream gap pairs)
        with (g0 ++ (SOI ++ body ++ EOI) ++ jpeg_stream gap pairs)
        by (now rewrite <- !app_assoc).
      replace (Z.of_nat (length g0) + 2 + Z.of_nat (length body) + 2)
        with (Z.of_nat (length g0) + Z.of_nat (length (SOI ++ body ++ EOI)))
        by (rewrite !length_app; simpl; lia).
      apply slice_middle. }
    assert (Hrs : slice_from (g0 ++ SOI ++ body ++ EOI ++ jpeg_stream gap pairs)
                    (Z.of_nat (length g0) + 2 + Z.of_nat (length body) + 2)
                  = jpeg_stream gap pairs).
    { replace (g0 ++ SOI ++ body ++ EOI ++ jpeg_stream gap pairs)
        with ((g0 ++ SOI ++ body ++ EOI) ++ jpeg_stream gap pairs)
        by (now rewrite <- !app_assoc).
      replace (Z.of_nat (length g0) + 2 + Z.of_nat (length body) + 2)
        with (Z.of_nat (length (g0 ++ SOI ++ body ++ EOI)))
        by (rewrite !length_app; simpl; lia).
      apply slice_from_app. }
    rewrite Hfr, Hrs, IH by (split; assumption). reflexivity.
Qed.

(** C1: a source that delivers, in chunks of any sizes, a stream of M
    well-formed marker pairs makes the reader submit exactly M frames to the
    queue's put path, in stream order, each being the bytes from its start
    marker through its end marker; the bytes after the last pair stay in
    the accumulation buffer. *)
Theorem demuxer_emits_every_frame (env : nat -> interference)
  (g0 : bytes) (pairs : list (bytes * bytes)) (chunks : list bytes) :
  well_formed_pairs g0 pairs ->
  Forall (fun c => c <> []) chunks ->
  concat chunks = jpeg_stream g0 pairs ->
  submitted (mjpeg_frame_reader env (feed chunks) reader_init)
    = map frame_of pairs /\
  length (submitted (mjpeg_frame_reader env (feed chunks) reader_init))
    = length pairs /\
  queue (mjpeg_frame_reader env (feed chunks) reader_init)
    = submit_all env 0 [] (map frame_of pairs) /\
  jpeg_data (mjpeg_frame_reader env (feed chunks) reader_init)
    = trailing g0 pairs.
Proof.
  intros Hwf Hne Hcat.
  assert (H : submitted (mjpeg_frame_reader env (feed chunks) reader_init)
              = map frame_of pairs /\
              queue (mjpeg_frame_reader env (feed chunks) reader_init)
              = submit_all env 0 [] (map frame_of pairs) /\
              jpeg_data (mjpeg_frame_reader env (feed chunks) reader_init)
              = trailing g0 pairs).
  { destruct chunks as [|c chunks].
    - simpl in Hcat. destruct pairs as [|[body gap] pairs].
      + simpl in *. subst g0. auto.
      + simpl in Hcat. symmetry in Hcat. apply app_eq_nil in Hcat as [_ Hcat].
        discriminate.
    - rewrite reader_feed by (simpl; auto using Nat.le_0_l).
      cbn [reader_init jpeg_data queue submitted length app].
      rewrite Hcat, split_jpeg_stream by exact Hwf. auto. }
  destruct H as (H1 & H2 & H3). rewrite H1, length_map. auto.
Qed.

Lemma demuxer_emits_every_frame_witness :
  submitted (mjpeg_frame_reader (fun _ => quiet)
               (feed [[x00; xff]; [xd8; x01; xff; xd9; x02; xff];
                      [xd8; xff; xd9; x03]]) reader_init)
    = [[xff; xd8; x01; xff; xd9]; [xff; xd8; xff; xd9]] /\
  length (submitted (mjpeg_frame_reader (fun _ => quiet)
               (feed [[x00; xff]; [xd8; x01; xff; xd9; x02; xff];
                      [xd8; xff; xd9; x03]]) reader_init)) = 2%nat /\
  queue (mjpeg_frame_reader (fun _ => quiet)
               (feed [[x00; xff]; [xd8; x01; xff; xd9; x02; xff];
                      [xd8; xff; xd9; x03]]) reader_init)
    = [[xff; xd8; x01; xff; xd9]; [xff; xd8; xff; xd9]] /\
  jpeg_data (mjpeg_frame_reader (fun _ => quiet)
               (feed [[x00; xff]; [xd8; x01; xff; xd9; x02; xff];
                      [xd8; xff; xd9; x03]]) reader_init) = [x03].
Proof.
  apply (demuxer_emits_every_frame (fun _ => quiet) [x00]
           [([x01], [x02]); ([], [x03])]
           [[x00; xff]; [xd8; x01; xff; xd9; x02; xff]; [xd8; xff; xd9; x03]]).
  - split; [split; reflexivity|].
    repeat constructor.
  - repeat constructor; discriminate.
  - reflexivity.
Defined.

(** ** An end marker ahead of the first start marker *)

Lemma stalled_no_extract (d : bytes) :
  end_before_start d -> can_extract d = false.
Proof.
  intros [He [Hs|Hs]]; unfold can_extract.
  - rewrite Hs. reflexivity.
  - replace (find SOI d <? find EOI d) with false
      by (symmetry; apply Z.ltb_ge; lia).
    apply andb_false_r.
Qed.

Lemma stalled_app (d c : bytes) :
  end_before_start d -> end_before_start (d ++ c).
Proof.
  intros [He Hs]. unfold end_before_start.
  rewrite (find_app_found EOI d c He).
  split; [assumption|].
  destruct (find_range EOI d) as [F|F]; [contradiction|]. simpl in F.
  destruct Hs as [Hs|Hs].
  - destruct (find_from_app_fresh SOI d c 0) as [G|G];
      [lia|exact Hs|left; exact G|].
    right. unfold find in *. simpl in G. lia.
  - right. rewrite find_app_found; [assumption|].
    destruct (find_range SOI d); lia.
Qed.

Lemma extract_frames_stalled env (fuel : nat) (st : reader_state) :
  can_extract (jpeg_data st) = false -> extract_frames env fuel st = (st, false).
Proof. intros H. destruct fuel; simpl; [|rewrite H]; reflexivity. Qed.

Lemma stalled_reader env (ticks : list reader_tick) :
  forall st, end_before_start (jpeg_data st) ->
  submitted (mjpeg_frame_reader env ticks st) = submitted st /\
  queue (mjpeg_frame_reader env ticks st) = queue st /\
  end_before_start (jpeg_data (mjpeg_frame_reader env ticks st)).
Proof.
  induction ticks as [|t ticks IH]; intros st Hst; simpl; auto.
  destruct (stop_seen t); auto. destruct (read t) as [[|b c]|]; auto.
  rewrite extract_frames_stalled
    by (apply stalled_no_extract; now apply stalled_app).
  apply (IH {| jpeg_data := jpeg_data st ++ b :: c; queue := queue st;
               submitted := submitted st |}).
  now apply stalled_app.
Qed.

Lemma stalled_feed env (chunks : list bytes) :
  forall st, end_before_start (jpeg_data st) ->
  Forall (fun c => c <> []) chunks ->
  jpeg_data (mjpeg_frame_reader env (feed chunks) st)
  = jpeg_data st ++ concat chunks.
Proof.
  induction chunks as [|c chunks IH]; intros st Hst Hne; simpl.
  - now rewrite app_nil_r.
  - inversion Hne as [|? ? Hc Hne']; subst.
    destruct c as [|b c]; [contradiction|].
    rewrite extract_frames_stalled
      by (apply stalled_no_extract; now apply stalled_app).
    rewrite IH; cbn [jpeg_data]; auto using stalled_app.
    now rewrite <- app_assoc.
Qed.

Lemma concat_nonempty_length (chunks : list bytes) :
  Forall (fun c => c <> []) chunks ->
  (length chunks <= length (concat chunks))%nat.
Proof.
  induction 1 as [|c chunks Hc _ IH]; simpl; auto.
  rewrite length_app. destruct c; [contradiction|]. simpl. lia.
Qed.

(** C9: once the accumulated bytes hold an end marker ahead of the first
    start marker, the guard of the extraction loop is false for these bytes
    followed by anything; whatever the source delivers afterwards, no frame
    is submitted and the queue is untouched, nothing is discarded from the
    accumulation buffer, and it grows by every chunk read. *)
Theorem end_before_start_stalls (env : nat -> interference)
  (d : bytes) (q : frame_queue) (sub : list Frame)
  (ticks : list reader_tick) (chunks : list bytes) :
  end_before_start d ->
  Forall (fun c => c <> []) chunks ->
  (forall more, can_extract (d ++ more) = false) /\
  submitted (mjpeg_frame_reader env ticks
               {| jpeg_data := d; queue := q; submitted := sub |}) = sub /\
  queue (mjpeg_frame_reader env ticks
               {| jpeg_data := d; queue := q; submitted := sub |}) = q /\
  jpeg_data (mjpeg_frame_reader env (feed chunks)
               {| jpeg_data := d; queue := q; submitted := sub |})
    = d ++ concat chunks /\
  (length d + length chunks <=
   length (jpeg_data (mjpeg_frame_reader env (feed chunks)
               {| jpeg_data := d; queue := q; submitted := sub |})))%nat.
Proof.
  intros Hd Hne.
  split; [intros more; apply stalled_no_extract; now apply stalled_app|].
  destruct (stalled_reader env ticks
              {| jpeg_data := d; queue := q; submitted := sub |} Hd)
    as (H1 & H2 & _).
  pose proof (stalled_feed env chunks
                {| jpeg_data := d; queue := q; submitted := sub |} Hd Hne) as H3.
  cbn [jpeg_data queue submitted] in *.
  repeat split; auto.
  rewrite H3, length_app. pose proof (concat_nonempty_length chunks Hne). lia.
Qed.

Lemma end_before_start_stalls_witness :
  (forall more, can_extract ([xff; xd9; x00] ++ more) = false) /\
  submitted (mjpeg_frame_reader (fun _ => quiet)
               (feed [[xff; xd8; x01]; [xff; xd9]])
               {| jpeg_data := [xff; xd9; x00]; queue := [];
                  submitted := [] |}) = [] /\
  queue (mjpeg_frame_reader (fun _ => quiet)
               (feed [[xff; xd8; x01]; [xff; xd9]])
               {| jpeg_data := [xff; xd9; x00]; queue := [];
                  submitted := [] |}) = [] /\
  jpeg_data (mjpeg_frame_reader (fun _ => quiet)
               (feed [[xff; xd8; x01]; [xff; xd9]])
               {| jpeg_data := [xff; xd9; x00]; queue := [];
                  submitted := [] |})
    = [xff; xd9; x00] ++ concat [[xff; xd8; x01]; [xff; xd9]] /\
  (length [xff; xd9; x00] + length [[xff; xd8; x01]; [xff; xd9]] <=
   length (jpeg_data (mjpeg_frame_reader (fun _ => quiet)
               (feed [[xff; xd8; x01]; [xff; xd9]])
               {| jpeg_data := [xff; xd9; x00]; queue := [];
                  submitted := [] |})))%nat.
Proof.
  apply (end_before_start_stalls (fun _ => quiet) [xff; xd9; x00] [] []
           (feed [[xff; xd8; x01]; [xff; xd9]])
           [[xff; xd8; x01]; [xff; xd9]]).
  - split; [discriminate|]. left. reflexivity.
  - repeat constructor; discriminate.
Defined.

(** ** The drop-oldest policy *)

Lemma lastn_short {A : Type} (n : nat) (l : list A) :
  (length l <= n)%nat -> lastn n l = l.
Proof.
  intros H. unfold lastn. now replace (length l - n)%nat with 0%nat by lia.
Qed.

Lemma lastn_length {A : Type} (n : nat) (l : list A) :
  length (lastn n l) = Nat.min n (length l).
Proof. unfold lastn. rewrite length_skipn. lia. Qed.

Lemma lastn_app_lastn {A : Type} (n : nat) (l l2 : list A) :
  lastn n (lastn n l ++ l2) = lastn n (l ++ l2).
Proof.
  destruct (Nat.le_gt_cases (length l) n) as [H|H].
  - now rewrite (lastn_short n l H).
  - unfold lastn at 1 3. rewrite !length_app, lastn_length.
    rewrite Nat.min_l by lia. unfold lastn.
    rewrite !skipn_app, skipn_skipn, length_skipn.
    f_equal; f_equal; lia.
Qed.

(** With no consumer active, one pass through the put path appends the
    frame and keeps the newest [FRAME_BUFFER_SIZE] entries. *)
Lemma reader_put_quiet (q : frame_queue) (f : Frame) :
  (length q <= FRAME_BUFFER_SIZE)%nat ->
  fst (reader_put quiet q f) = lastn FRAME_BUFFER_SIZE (q ++ [f]).
Proof.
  intros Hq. unfold reader_put, put_timeout, quiet, consumers_take.
  cbn [during_wait before_get before_put skipn].
  destruct (Nat.ltb_spec (length q) FRAME_BUFFER_SIZE) as [H|H].
  - cbn [fst]. rewrite lastn_short; [reflexivity|].
    rewrite length_app. simpl. lia.
  - destruct q as [|f0 q]; [unfold FRAME_BUFFER_SIZE in H; simpl in H; lia|].
    cbn [get_nowait skipn]. unfold put_nowait. simpl in Hq, H.
    destruct (Nat.ltb_spec (length q) FRAME_BUFFER_SIZE) as [H'|H']; [|lia].
    cbn [fst]. unfold lastn. rewrite length_app. simpl length.
    replace (S (length q) + 1 - FRAME_BUFFER_SIZE)%nat with 1%nat by lia.
    reflexivity.
Qed.

Lemma submit_all_quiet (fs : list Frame) :
  forall n q, (length q <= FRAME_BUFFER_SIZE)%nat ->
  submit_all (fun _ => quiet) n q fs = lastn FRAME_BUFFER_SIZE (q ++ fs).
Proof.
  induction fs as [|f fs IH]; intros n q Hq; simpl.
  - rewrite app_nil_r. symmetry. now apply lastn_short.
  - rewrite IH by (now apply reader_put_bounded).
    rewrite reader_put_quiet by exact Hq.
    rewrite lastn_app_lastn, <- app_assoc. reflexivity.
Qed.

(** C2: putting [FRAME_BUFFER_SIZE + 1] frames through the reader's put
    path into an empty queue, with no consumer taking, leaves exactly
    [FRAME_BUFFER_SIZE] frames: all but the first one put, in the order
    they were put. *)
Theorem overflow_keeps_most_recent (fs : list Frame) :
  length fs = S FRAME_BUFFER_SIZE ->
  submit_all (fun _ => quiet) 0 [] fs = tl fs /\
  submit_all (fun _ => quiet) 0 [] fs = lastn FRAME_BUFFER_SIZE fs /\
  length (submit_all (fun _ => quiet) 0 [] fs) = FRAME_BUFFER_SIZE.
Proof.
  intros Hlen.
  rewrite submit_all_quiet by (simpl; apply Nat.le_0_l). simpl app.
  assert (H : lastn FRAME_BUFFER_SIZE fs = tl fs).
  { unfold lastn. rewrite Hlen.
    replace (S FRAME_BUFFER_SIZE - FRAME_BUFFER_SIZE)%nat with 1%nat by lia.
    now destruct fs. }
  rewrite H. repeat split.
  destruct fs; simpl in *; lia.
Qed.

Lemma overflow_keeps_most_recent_witness :
  submit_all (fun _ => quiet) 0 []
    (map (fun n => repeat xff n) (seq 1 21))
  = tl (map (fun n => repeat xff n) (seq 1 21)) /\
  submit_all (fun _ => quiet) 0 []
    (map (fun n => repeat xff n) (seq 1 21))
  = lastn FRAME_BUFFER_SIZE (map (fun n => repeat xff n) (seq 1 21)) /\
  length (submit_all (fun _ => quiet) 0 []
            (map (fun n => repeat xff n) (seq 1 21))) = FRAME_BUFFER_SIZE.
Proof.
  apply (overflow_keeps_most_recent (map (fun n => repeat xff n) (seq 1 21))).
  reflexivity.
Defined.

(** C10: when the timed put fails on a full queue and the consumers have
    emptied the queue by the time [get_nowait] runs, the put path ends
    without raising and without the frame: the queue it leaves is empty. *)
Theorem drained_queue_discards_frame (i : interference) (q q0 : frame_queue)
  (frame : Frame) :
  put_timeout (during_wait i) q frame = inr q0 ->
  get_nowait (consumers_take (before_get i) q0) = None ->
  (FRAME_BUFFER_SIZE <= length q)%nat /\
  reader_put i q frame = ([], Discarded) /\
  ~ In frame (fst (reader_put i q frame)).
Proof.
  intros Hput Hget. unfold reader_put. rewrite Hput.
  destruct (consumers_take (before_get i) q0) as [|f0 q1] eqn:E;
    [|discriminate].
  cbn [get_nowait fst]. repeat split; auto.
  unfold put_timeout in Hput.
  destruct (Nat.ltb_spec (length q) FRAME_BUFFER_SIZE); [discriminate|lia].
Qed.

Lemma drained_queue_discards_frame_witness :
  (FRAME_BUFFER_SIZE <= length (repeat [xff; xd8; xff; xd9] 20))%nat /\
  reader_put {| during_wait := 0; before_get := 20; before_put := 0 |}
    (repeat [xff; xd8; xff; xd9] 20) [xff; xd8; x01; xff; xd9]
  = ([], Discarded) /\
  ~ In [xff; xd8; x01; xff; xd9]
      (fst (reader_put
              {| during_wait := 0; before_get := 20; before_put := 0 |}
              (repeat [xff; xd8; xff; xd9] 20) [xff; xd8; x01; xff; xd9])).
Proof.
  apply (drained_queue_discards_frame
           {| during_wait := 0; before_get := 20; before_put := 0 |}
           (repeat [xff; xd8; xff; xd9] 20)
           (repeat [xff; xd8; xff; xd9] 20)).
  - reflexivity.
  - reflexivity.
Defined.

(** ** Two consumers competing for the queue *)

Lemma interleaving_snoc_left {A : Type} (x : A) (l1 l2 l : list A) :
  interleaving l1 l2 l -> interleaving (l1 ++ [x]) l2 (l ++ [x]).
Proof.
  induction 1; simpl.
  - apply il_left, il_nil.
  - now apply il_left.
  - now apply il_right.
Qed.

Lemma interleaving_snoc_right {A : Type} (x : A) (l1 l2 l : list A) :
  interleaving l1 l2 l -> interleaving l1 (l2 ++ [x]) (l ++ [x]).
Proof.
  induction 1; simpl.
  - apply il_right, il_nil.
  - now apply il_left.
  - now apply il_right.
Qed.

Lemma interleaving_length {A : Type} (l1 l2 l : list A) :
  interleaving l1 l2 l -> (length l1 + length l2 = length l)%nat.
Proof. induction 1; simpl; lia. Qed.

Lemma interleaving_perm {A : Type} (l1 l2 l : list A) :
  interleaving l1 l2 l -> Permutation (l1 ++ l2) l.
Proof.
  induction 1; simpl.
  - constructor.
  - now constructor.
  - rewrite <- IHinterleaving. symmetry. apply Permutation_middle.
Qed.

(** What the consumers hold after a schedule of takes is an interleaving
    of the entries taken, and the entries taken are the oldest ones. *)
Lemma run_schedule_interleaves (sched : list consumer) :
  forall s done,
  interleaving (got_a s) (got_b s) done ->
  interleaving (got_a (run_schedule sched s)) (got_b (run_schedule sched s))
    (done ++ firstn (length sched) (shared s)) /\
  shared (run_schedule sched s) = skipn (length sched) (shared s).
Proof.
  induction sched as [|c sched IH]; intros s done Hs; simpl.
  - rewrite app_nil_r. auto.
  - unfold run_schedule in *. destruct s as [q a b]. unfold take_step at 2 4 6.
    cbn [shared got_a got_b] in *. unfold take.
    destruct q as [|f q]; cbn [get_nowait].
    + destruct (IH {| shared := []; got_a := a; got_b := b |} done Hs)
        as [H1 H2]. cbn [shared] in *.
      rewrite firstn_nil in H1. rewrite skipn_nil in H2. simpl. auto.
    + destruct c.
      * destruct (IH {| shared := q; got_a := a ++ [f]; got_b := b |}
                    (done ++ [f])) as [H1 H2];
          [now apply interleaving_snoc_left|].
        cbn [shared] in *. rewrite <- app_assoc in H1. simpl in *. auto.
      * destruct (IH {| shared := q; got_a := a; got_b := b ++ [f] |}
                    (done ++ [f])) as [H1 H2];
          [now apply interleaving_snoc_right|].
        cbn [shared] in *. rewrite <- app_assoc in H1. simpl in *. auto.
Qed.

(** C5: two consumers taking from a queue of K frames, their takes
    serialised in any order and numbering at least K in total, receive
    between them exactly the K frames: the queue content is an
    order-preserving interleaving of what the two received, so every frame
    went to exactly one of them, and the queue is left empty. *)
Theorem each_frame_to_one_consumer (sched : list consumer) (q : frame_queue) :
  (length q <= length sched)%nat ->
  interleaving
    (got_a (run_schedule sched {| shared := q; got_a := []; got_b := [] |}))
    (got_b (run_schedule sched {| shared := q; got_a := []; got_b := [] |}))
    q /\
  (length (got_a (run_schedule sched
                    {| shared := q; got_a := []; got_b := [] |})) +
   length (got_b (run_schedule sched
                    {| shared := q; got_a := []; got_b := [] |}))
   = length q)%nat /\
  Permutation
    (got_a (run_schedule sched {| shared := q; got_a := []; got_b := [] |}) ++
     got_b (run_schedule sched {| shared := q; got_a := []; got_b := [] |}))
    q /\
  shared (run_schedule sched {| shared := q; got_a := []; got_b := [] |}) = [].
Proof.
  intros Hlen.
  destruct (run_schedule_interleaves sched
              {| shared := q; got_a := []; got_b := [] |} [] il_nil)
    as [H1 H2].
  cbn [shared app] in *. rewrite firstn_all2 in H1 by exact Hlen.
  rewrite skipn_all2 in H2 by exact Hlen.
  repeat split; auto using interleaving_length, interleaving_perm.
Qed.

Lemma each_frame_to_one_consumer_witness :
  interleaving
    (got_a (run_schedule [ConsumerA; ConsumerB; ConsumerB; ConsumerA]
              {| shared := [[x01]; [x02]; [x03]]; got_a := []; got_b := [] |}))
    (got_b (run_schedule [ConsumerA; ConsumerB; ConsumerB; ConsumerA]
              {| shared := [[x01]; [x02]; [x03]]; got_a := []; got_b := [] |}))
    [[x01]; [x02]; [x03]] /\
  (length (got_a (run_schedule [ConsumerA; ConsumerB; ConsumerB; ConsumerA]
              {| shared := [[x01]; [x02]; [x03]]; got_a := []; got_b := [] |})) +
   length (got_b (run_schedule [ConsumerA; ConsumerB; ConsumerB; ConsumerA]
              {| shared := [[x01]; [x02]; [x03]]; got_a := []; got_b := [] |}))
   = length [[x01]; [x02]; [x03]])%nat /\
  Permutation
    (got_a (run_schedule [ConsumerA; ConsumerB; ConsumerB; ConsumerA]
              {| shared := [[x01]; [x02]; [x03]]; got_a := []; got_b := [] |}) ++
     got_b (run_schedule [ConsumerA; ConsumerB; ConsumerB; ConsumerA]
              {| shared := [[x01]; [x02]; [x03]]; got_a := []; got_b := [] |}))
    [[x01]; [x02]; [x03]] /\
  shared (run_schedule [ConsumerA; ConsumerB; ConsumerB; ConsumerA]
            {| shared := [[x01]; [x02]; [x03]]; got_a := []; got_b := [] |})
  = [].
Proof.
  apply (each_frame_to_one_consumer
           [ConsumerA; ConsumerB; ConsumerB; ConsumerA]
           [[x01]; [x02]; [x03]]).
  simpl. lia.
Defined.

(** ** The sampling consumer *)

Lemma ocr_frame_effect (frame : Frame) (o : ocr_outcome) (st : ocr_state) :
  frames_taken (ocr_frame frame o st) = frames_taken st ++ [frame] /\
  frame_count (ocr_frame frame o st) = frame_count st + 1 /\
  recognitions (ocr_frame frame o st)
  = recognitions st ++ every_kth OCR_FRAME_INTERVAL (frame_count st) [frame].
Proof.
  unfold ocr_frame. cbn [every_kth].
  destruct (_ =? 0); cbn [frames_taken frame_count recognitions];
    rewrite ?app_nil_r; auto.
Qed.

Lemma every_kth_app (k : Z) (l1 l2 : list Frame) :
  forall count,
  every_kth k count (l1 ++ l2)
  = every_kth k count l1 ++ every_kth k (count + Z.of_nat (length l1)) l2.
Proof.
  induction l1 as [|f l1 IH]; intros count; simpl app; cbn [every_kth].
  - simpl. now rewrite Z.add_0_r.
  - rewrite IH.
    replace (count + 1 + Z.of_nat (length l1))
      with (count + Z.of_nat (length (f :: l1))) by (simpl length; lia).
    now destruct (_ =? 0).
Qed.

(** The loop counts every frame it takes and hands to recognition the
    frames whose count is a multiple of the interval. *)
Lemma ocr_thread_func_samples (ticks : list ocr_tick) :
  forall st, exists new,
  frames_taken (fst (ocr_thread_func ticks st)) = frames_taken st ++ new /\
  frame_count (fst (ocr_thread_func ticks st))
  = frame_count st + Z.of_nat (length new) /\
  recognitions (fst (ocr_thread_func ticks st))
  = recognitions st ++ every_kth OCR_FRAME_INTERVAL (frame_count st) new.
Proof.
  induction ticks as [|t ticks IH]; intros st; simpl.
  - exists []. simpl. rewrite !app_nil_r. auto with zarith.
  - destruct (o_stop t).
    + exists []. simpl. rewrite !app_nil_r. auto with zarith.
    + destruct (o_get t) as [frame|]; [|apply IH].
      destruct (IH (ocr_frame frame (o_engine t) st)) as (new & H1 & H2 & H3).
      destruct (ocr_frame_effect frame (o_engine t) st) as (E1 & E2 & E3).
      exists (frame :: new). rewrite H1, H2, H3, E1, E2, E3.
      pose proof (every_kth_app OCR_FRAME_INTERVAL [frame] new (frame_count st))
        as Happ.
      simpl app in Happ. simpl length in Happ. rewrite Happ.
      rewrite <- !app_assoc. simpl app. simpl length.
      repeat split; auto; lia.
Qed.

(** C6: a run of the sampling loop that takes 61 frames, whatever timeouts
    lie between them, hands exactly two frames to recognition, the 30th and
    the 60th taken; the frame counter ends at 61; and a frame whose count is
    not a multiple of the interval changes nothing but the counter. *)
Theorem sampler_recognises_30th_and_60th (ticks : list ocr_tick)
  (frames : list Frame) :
  frames_taken (fst (ocr_thread_func ticks ocr_init)) = frames ->
  length frames = 61%nat ->
  recognitions (fst (ocr_thread_func ticks ocr_init))
  = [(30, nth 29 frames []); (60, nth 59 frames [])] /\
  frame_count (fst (ocr_thread_func ticks ocr_init)) = 61 /\
  (forall frame o st,
     (frame_count st + 1) mod OCR_FRAME_INTERVAL <> 0 ->
     recognitions (ocr_frame frame o st) = recognitions st /\
     latest_ocr_result (ocr_frame frame o st) = latest_ocr_result st /\
     frame_count (ocr_frame frame o st) = frame_count st + 1).
Proof.
  intros Htaken Hlen.
  destruct (ocr_thread_func_samples ticks ocr_init) as (new & H1 & H2 & H3).
  rewrite Htaken in H1. cbn [ocr_init frames_taken frame_count recognitions app]
    in H1, H2, H3.
  subst new. rewrite H2, H3, Hlen. split; [|split; [reflexivity|]].
  - do 61 (destruct frames as [|? frames]; [discriminate|]).
    destruct frames; [|discriminate]. reflexivity.
  - intros frame o st Hmod. unfold ocr_frame.
    apply Z.eqb_neq in Hmod. rewrite Hmod. auto.
Qed.

Lemma sampler_recognises_30th_and_60th_witness :
  recognitions
    (fst (ocr_thread_func
            (map (fun n => {| o_stop := false;
                              o_get := if Nat.even n then None
                                       else Some (repeat xff n);
                              o_engine := OcrFailed |}) (seq 0 122))
            ocr_init))
  = [(30, nth 29 (map (fun n => repeat xff (2 * n + 1)) (seq 0 61)) []);
     (60, nth 59 (map (fun n => repeat xff (2 * n + 1)) (seq 0 61)) [])] /\
  frame_count
    (fst (ocr_thread_func
            (map (fun n => {| o_stop := false;
                              o_get := if Nat.even n then None
                                       else Some (repeat xff n);
                              o_engine := OcrFailed |}) (seq 0 122))
            ocr_init)) = 61 /\
  (forall frame o st,
     (frame_count st + 1) mod OCR_FRAME_INTERVAL <> 0 ->
     recognitions (ocr_frame frame o st) = recognitions st /\
     latest_ocr_result (ocr_frame frame o st) = latest_ocr_result st /\
     frame_count (ocr_frame frame o st) = frame_count st + 1).
Proof.
  apply (sampler_recognises_30th_and_60th
           (map (fun n => {| o_stop := false;
                             o_get := if Nat.even n then None
                                      else Some (repeat xff n);
                             o_engine := OcrFailed |}) (seq 0 122))
           (map (fun n => repeat xff (2 * n + 1)) (seq 0 61))).
  - vm_compute. reflexivity.
  - reflexivity.
Defined.

(** ** The result register and [GET /ocr.txt] *)

Lemma is_http09_false (version : string) :
  version <> "HTTP/0.9"%string -> is_http09 version = false.
Proof. intros H. now apply String.eqb_neq. Qed.

(** Resolves the tests on the request version once it is known. *)
Ltac with_version Hv :=
  repeat (progress (cbn [request_version headers_buffer wfile fst snd];
                    try rewrite Hv)).






(** *** Text that can be encoded *)









(** ** The multipart stream *)

(** Runs the writes of one turn once the request version is known. *)
Ltac run_part E :=
  repeat (progress (cbv beta iota zeta
                      delta [send_part send_header end_headers wfile_write
                             request_version headers_buffer wfile
                             Nat.ltb Nat.leb pred fst snd];
                    try rewrite E)).

Lemma expected_part_layout (frame : Frame) :
  expected_part frame
  = (MJPEG_BOUNDARY ++ CRLF)
    ++ ((ascii_bytes ("Content-type" ++ ": " ++ "image/jpeg") ++ CRLF)
        ++ ascii_bytes ("Content-length" ++ ": "
                        ++ str_of_nat (length frame)) ++ CRLF)
    ++ CRLF ++ frame ++ CRLF.
Proof.
  assert (Ety : ascii_bytes ("Content-type" ++ ": " ++ "image/jpeg")
                = ascii_bytes "Content-type: image/jpeg") by reflexivity.
  assert (Elen : forall s, ascii_bytes ("Content-length" ++ ": " ++ s)
                 = ascii_bytes "Content-length: " ++ ascii_bytes s)
    by reflexivity.
  unfold expected_part. rewrite Ety, Elen.
  change (ascii_bytes "--FRAME--") with MJPEG_BOUNDARY.
  repeat rewrite <- app_assoc. reflexivity.
Qed.

(** A turn whose writes all go through has written exactly the part. *)
Lemma send_part_sent (ok : nat) (frame : Frame) (version : string)
  (w : bytes) :
  snd (send_part ok frame
         {| request_version := version; headers_buffer := []; wfile := w |})
  = true ->
  fst (send_part ok frame
         {| request_version := version; headers_buffer := []; wfile := w |})
  = {| request_version := version; headers_buffer := [];
       wfile := w ++ part_for version frame |}.
Proof.
  unfold part_for. rewrite expected_part_layout. unfold bare_part.
  destruct (is_http09 version) eqn:E;
    destruct ok as [|[|[|[|ok]]]]; run_part E; try discriminate;
    intros _; f_equal; cbn [app]; now rewrite <- !app_assoc.
Qed.

Lemma send_part_succeeds (ok : nat) (frame : Frame) (h : handler_state) :
  (4 <= ok)%nat -> snd (send_part ok frame h) = true.
Proof.
  intros Hok. destruct ok as [|[|[|[|ok]]]]; try lia.
  destruct h as [version hb w].
  destruct (is_http09 version) eqn:E; run_part E; reflexivity.
Qed.

Lemma send_part_ok (ok : nat) (frame : Frame) (version : string)
  (w : bytes) :
  (4 <= ok)%nat ->
  send_part ok frame
    {| request_version := version; headers_buffer := []; wfile := w |}
  = ({| request_version := version; headers_buffer := [];
        wfile := w ++ part_for version frame |}, true).
Proof.
  intros Hok.
  pose proof (send_part_succeeds ok frame
                {| request_version := version; headers_buffer := [];
                   wfile := w |} Hok) as Hs.
  pose proof (send_part_sent ok frame version w Hs) as Hf.
  destruct (send_part ok frame _) as [h' sent]. cbn [fst snd] in *.
  now subst.
Qed.

Lemma frames_got_cons (t : stream_tick) (ticks : list stream_tick) :
  frames_got (t :: ticks)
  = match s_get t with Some f => [f] | None => [] end ++ frames_got ticks.
Proof. reflexivity. Qed.

(** While every turn goes through, the loop keeps running and has written
    one part per frame taken. *)
Lemma stream_loop_goes_through (version : string)
  (ticks : list stream_tick) :
  forall w taken,
  Forall turn_goes_through ticks ->
  stream_loop ticks
    {| request_version := version; headers_buffer := []; wfile := w |} taken
  = ({| request_version := version; headers_buffer := [];
        wfile := w ++ concat (map (part_for version) (frames_got ticks)) |},
     taken ++ frames_got ticks, false).
Proof.
  induction ticks as [|t ticks IH]; intros w taken Hall; cbn [stream_loop].
  - simpl. now rewrite !app_nil_r.
  - inversion Hall as [|? ? [Hstop Hok] Hall']; subst. rewrite Hstop.
    rewrite frames_got_cons.
    destruct (s_get t) as [frame|]; [|now apply IH].
    rewrite send_part_ok by exact Hok. rewrite IH by exact Hall'.
    cbn [app map concat]. now rewrite <- !app_assoc.
Qed.

(** The loop is left only in a turn that sees the stop signal or loses the
    client. *)
Lemma stream_loop_left (ticks : list stream_tick) :
  forall h taken,
  snd (stream_loop ticks h taken) = true -> Exists turn_leaves ticks.
Proof.
  induction ticks as [|t ticks IH]; intros h taken; simpl; [discriminate|].
  destruct (s_stop t) eqn:Hstop; [intros _; left; now left|].
  destruct (s_get t) as [frame|] eqn:Hget.
  - destruct (send_part (s_writes_ok t) frame h) as [h' sent] eqn:Hs.
    destruct sent.
    + intros H. right. eapply IH, H.
    + intros _. left. right. rewrite Hget. split; [discriminate|].
      destruct (Nat.lt_ge_cases (s_writes_ok t) 4) as [|Hge]; auto.
      pose proof (send_part_succeeds (s_writes_ok t) frame h Hge) as H.
      rewrite Hs in H. discriminate.
  - intros H. right. eapply IH, H.
Qed.

Lemma stream_loop_app (version : string) (good rest : list stream_tick) :
  forall w taken,
  Forall turn_goes_through good ->
  stream_loop (good ++ rest)
    {| request_version := version; headers_buffer := []; wfile := w |} taken
  = stream_loop rest
      {| request_version := version; headers_buffer := [];
         wfile := w ++ concat (map (part_for version) (frames_got good)) |}
      (taken ++ frames_got good).
Proof.
  induction good as [|t good IH]; intros w taken Hall.
  - simpl. now rewrite !app_nil_r.
  - inversion Hall as [|? ? [Hstop Hok] Hall']; subst.
    change ((t :: good) ++ rest) with (t :: (good ++ rest)).
    cbn [stream_loop]. rewrite Hstop.
    rewrite frames_got_cons.
    destruct (s_get t) as [frame|]; [|now apply IH].
    rewrite send_part_ok by exact Hok. rewrite IH by exact Hall'.
    cbn [app map concat]. now rewrite <- !app_assoc.
Qed.

Lemma do_GET_stream (response_head : Z -> bytes)
  (error_response : string -> Z -> bytes) (html_content : text)
  (version : string) (latest : text) (ticks : list stream_tick) :
  do_GET response_head error_response html_content version "/stream.mjpeg"
    latest ticks
  = stream_loop ticks
      {| request_version := version; headers_buffer := [];
         wfile := stream_head_for response_head version |} [].
Proof.
  unfold do_GET, stream_head_for. cbn [String.eqb Ascii.eqb Bool.eqb].
  unfold send_response, send_header, end_headers, handler_init.
  destruct (is_http09 version) eqn:Hv; with_version Hv; [reflexivity|].
  cbn [app]. do 2 f_equal.
  unfold expected_stream_headers. repeat rewrite <- app_assoc. reflexivity.
Qed.

Lemma part_for_versioned (version : string) (fs : list Frame) :
  is_http09 version = false ->
  map (part_for version) fs = map expected_part fs.
Proof.
  intros Hv. apply map_ext. intros f. unfold part_for. now rewrite Hv.
Qed.

Lemma content_length_reads_back (n : nat) :
  option_map Nat.of_uint (NilEmpty.uint_of_string (str_of_nat n)) = Some n.
Proof.
  unfold str_of_nat. rewrite NilEmpty.usu. simpl.
  now rewrite DecimalNat.Unsigned.of_to.
Qed.

(** C8, as the code has it: for a request whose request line carries an
    HTTP version, [GET /stream.mjpeg] answers 200 with the multipart
    content type naming the boundary and no-cache headers; while the stop
    signal is clear and the client takes the writes, the body holds, for
    every frame taken and in the order taken, one part made of the boundary
    line, the image content type, the content length in decimal, a blank
    line, the frame bytes and CRLF; the loop goes on as long as that is so,
    ends at the first turn that sees the stop signal with exactly those
    parts written, and is left in no other way than by the stop signal or a
    failed write to the client. *)
Theorem stream_writes_one_part_per_frame
  (response_head : Z -> bytes) (error_response : string -> Z -> bytes)
  (html_content : text) (version : string) (latest : text) :
  version <> "HTTP/0.9"%string ->
  (forall ticks,
     Forall turn_goes_through ticks ->
     do_GET response_head error_response html_content version
       "/stream.mjpeg" latest ticks
     = ({| request_version := version; headers_buffer := [];
           wfile := response_head 200 ++ expected_stream_headers
                    ++ concat (map expected_part (frames_got ticks)) |},
        frames_got ticks, false)) /\
  (forall good t rest,
     Forall turn_goes_through good -> s_stop t = true ->
     do_GET response_head error_response html_content version
       "/stream.mjpeg" latest (good ++ t :: rest)
     = ({| request_version := version; headers_buffer := [];
           wfile := response_head 200 ++ expected_stream_headers
                    ++ concat (map expected_part (frames_got good)) |},
        frames_got good, true)) /\
  (forall good t frame rest,
     Forall turn_goes_through good -> s_stop t = false ->
     s_get t = Some frame -> s_writes_ok t = 0%nat ->
     do_GET response_head error_response html_content version
       "/stream.mjpeg" latest (good ++ t :: rest)
     = ({| request_version := version; headers_buffer := [];
           wfile := response_head 200 ++ expected_stream_headers
                    ++ concat (map expected_part (frames_got good)) |},
        frames_got good ++ [frame], true)) /\
  (forall ticks,
     snd (do_GET response_head error_response html_content version
            "/stream.mjpeg" latest ticks) = true ->
     Exists turn_leaves ticks) /\
  (forall frame,
     expected_part frame
     = MJPEG_BOUNDARY ++ CRLF
       ++ ascii_bytes "Content-type: image/jpeg" ++ CRLF
       ++ ascii_bytes "Content-length: "
       ++ ascii_bytes (str_of_nat (length frame)) ++ CRLF
       ++ CRLF ++ frame ++ CRLF /\
     option_map Nat.of_uint
       (NilEmpty.uint_of_string (str_of_nat (length frame)))
     = Some (length frame)) /\
  expected_stream_headers
  = ascii_bytes "Content-type: multipart/x-mixed-replace; boundary="
    ++ MJPEG_BOUNDARY ++ CRLF
    ++ ascii_bytes "Cache-Control: no-cache, private" ++ CRLF
    ++ ascii_bytes "Pragma: no-cache" ++ CRLF
    ++ ascii_bytes "Connection: keep-alive" ++ CRLF
    ++ CRLF.
Proof.
  intros Hver. apply is_http09_false in Hver.
  assert (Hhead : stream_head_for response_head version
                  = response_head 200 ++ expected_stream_headers)
    by (unfold stream_head_for; now rewrite Hver).
  repeat split.
  - intros ticks Hall. rewrite do_GET_stream, stream_loop_goes_through
      by exact Hall.
    rewrite Hhead, part_for_versioned by exact Hver.
    now rewrite <- app_assoc.
  - intros good t rest Hall Hstop.
    rewrite do_GET_stream, stream_loop_app by exact Hall.
    simpl. rewrite Hstop, Hhead, part_for_versioned by exact Hver.
    now rewrite <- app_assoc.
  - intros good t frame rest Hall Hstop Hget Hok.
    rewrite do_GET_stream, stream_loop_app by exact Hall.
    simpl. rewrite Hstop, Hget, Hok. simpl.
    rewrite Hhead, part_for_versioned by exact Hver.
    now rewrite <- app_assoc.
  - intros ticks. rewrite do_GET_stream. apply stream_loop_left.
  - apply content_length_reads_back.
Qed.

Lemma stream_writes_one_part_per_frame_witness :
  do_GET (fun _ => ascii_bytes "HTTP/1.0 200 OK" ++ CRLF) (fun _ _ => []) []
    "HTTP/1.1" "/stream.mjpeg" []
    [ {| s_stop := false; s_get := Some [xff; xd8; x01; xff; xd9];
         s_writes_ok := 4 |};
      {| s_stop := false; s_get := None; s_writes_ok := 4 |};
      {| s_stop := false; s_get := Some [xff; xd8; xff; xd9];
         s_writes_ok := 4 |} ]
  = ({| request_version := "HTTP/1.1"; headers_buffer := [];
        wfile := (ascii_bytes "HTTP/1.0 200 OK" ++ CRLF)
                 ++ expected_stream_headers
                 ++ concat (map expected_part
                              [[xff; xd8; x01; xff; xd9];
                               [xff; xd8; xff; xd9]]) |},
     [[xff; xd8; x01; xff; xd9]; [xff; xd8; xff; xd9]], false).
Proof.
  apply (proj1 (stream_writes_one_part_per_frame
                  (fun _ => ascii_bytes "HTTP/1.0 200 OK" ++ CRLF)
                  (fun _ _ => []) [] "HTTP/1.1" [] ltac:(discriminate))
           [ {| s_stop := false; s_get := Some [xff; xd8; x01; xff; xd9];
                s_writes_ok := 4 |};
             {| s_stop := false; s_get := None; s_writes_ok := 4 |};
             {| s_stop := false; s_get := Some [xff; xd8; xff; xd9];
                s_writes_ok := 4 |} ]).
  repeat constructor.
Defined.

(** For a request line without a version no header is buffered: the part
    written for a frame is the boundary line, the frame and CRLF, without
    content type, content length or blank line, and no status line
    precedes it. *)
Lemma stream_without_version_has_bare_parts :
  ~ (forall version : string,
       wfile (fst (fst (do_GET
                          (fun _ => ascii_bytes "HTTP/1.0 200 OK" ++ CRLF)
                          (fun _ _ => []) [] version "/stream.mjpeg" []
                          [ {| s_stop := false;
                               s_get := Some [xff; xd8; xff; xd9];
                               s_writes_ok := 4 |} ])))
       = (ascii_bytes "HTTP/1.0 200 OK" ++ CRLF)
         ++ expected_stream_headers
         ++ expected_part [xff; xd8; xff; xd9]).
Proof.
  intros H. specialize (H "HTTP/0.9"%string).
  vm_compute in H. discriminate.
Qed.

(** ** Teardown of the external processes *)






(** ** The web server thread and the stop signal *)

(** C3: in a run of the program, where nothing requests the server's
    shutdown, the web server thread stays inside [serve_forever] whatever
    the stop signal is: it never reaches its own stop-checking loop and
    never finishes. *)
Theorem web_server_ignores_stop (ticks : list web_tick) :
  program_run ticks ->
  web_server_thread_func ticks InServeForever = InServeForever /\
  web_server_thread_func ticks InServeForever <> WebFinished.
Proof.
  intros Hrun.
  assert (H : web_server_thread_func ticks InServeForever = InServeForever).
  { unfold web_server_thread_func.
    induction Hrun as [|t ticks Ht _ IH]; simpl; [reflexivity|].
    now rewrite Ht. }
  rewrite H. split; [reflexivity|discriminate].
Qed.

Lemma web_server_ignores_stop_witness :
  web_server_thread_func
    (repeat {| w_stop := true; w_bind_fails := false;
               w_shutdown_requested := false; w_request := false |} 8)
    InServeForever = InServeForever /\
  web_server_thread_func
    (repeat {| w_stop := true; w_bind_fails := false;
               w_shutdown_requested := false; w_request := false |} 8)
    InServeForever <> WebFinished.
Proof.
  apply (web_server_ignores_stop
           (repeat {| w_stop := true; w_bind_fails := false;
                      w_shutdown_requested := false; w_request := false |} 8)).
  repeat constructor.
Defined.

(* ===================================================================== *)
(** * Further properties of the workers                                   *)
(* ===================================================================== *)

(** ** More on searching *)

Lemma startswith_split (sub x : bytes) :
  startswith sub x = true -> x = sub ++ skipn (length sub) x.
Proof.
  revert x; induction sub as [|a sub IH]; intros [|b x]; simpl;
    try reflexivity; try discriminate.
  intros H. apply andb_true_iff in H as [H1 H2].
  apply Byte.byte_dec_bl in H1. subst b. f_equal. now apply IH.
Qed.

Lemma find_zero (sub x : bytes) :
  find sub x = 0 -> startswith sub x = true.
Proof.
  unfold find. destruct x as [|b x]; simpl.
  - destruct (startswith sub []); [reflexivity|discriminate].
  - destruct (startswith sub (b :: x)); [reflexivity|].
    destruct (find_from_range sub x 1); lia.
Qed.

(** Dropping bytes that lie before the first occurrence shifts it. *)
Lemma find_skipn (sub : bytes) (k : nat) :
  forall d, find sub d <> -1 -> Z.of_nat k <= find sub d ->
  find sub (skipn k d) = find sub d - Z.of_nat k.
Proof.
  induction k as [|k IH]; intros d Hf Hk.
  - simpl. lia.
  - destruct d as [|b d].
    + exfalso. unfold find in *. simpl in *.
      destruct (startswith sub []); lia.
    + assert (Hd : find sub (b :: d) = find sub d + 1 /\ find sub d <> -1).
      { unfold find in *. rewrite find_from_cons in *.
        destruct (startswith sub (b :: d)); [lia|].
        rewrite find_from_shift in * by lia. fold (find sub d) in *.
        destruct (find sub d =? -1) eqn:E;
          [contradiction|apply Z.eqb_neq in E; auto]. }
      destruct Hd as [Hd Hne]. simpl skipn. rewrite IH by (auto; lia). lia.
Qed.

(** A prefix that holds the first occurrence has it at the same place. *)
Lemma find_firstn (sub d : bytes) (m : nat) :
  find sub d <> -1 ->
  find sub d + Z.of_nat (length sub) <= Z.of_nat m ->
  find sub (firstn m d) = find sub d.
Proof.
  intros Hf Hm.
  destruct (find_range sub d) as [F|F]; [contradiction|].
  destruct (Z.eq_dec (find sub (firstn m d)) (-1)) as [E|E].
  - exfalso.
    destruct (find_from_app_fresh sub (firstn m d) (skipn m d) 0) as [G|G];
      [lia|exact E| |]; rewrite firstn_skipn in G; fold (find sub d) in G.
    + contradiction.
    + rewrite length_firstn in G. lia.
  - rewrite <- (firstn_skipn m d) at 2. symmetry. now apply find_app_found.
Qed.

Lemma slice_inside (d : bytes) (lo hi : Z) :
  0 <= lo <= hi -> hi <= Z.of_nat (length d) ->
  slice d lo hi = firstn (Z.to_nat (hi - lo)) (skipn (Z.to_nat lo) d).
Proof.
  intros Hlo Hhi. unfold slice, clamp_index.
  destruct (Z.ltb_spec lo 0); [lia|]. destruct (Z.ltb_spec hi 0); [lia|].
  now rewrite !Z.min_l by lia.
Qed.

Lemma slice_from_inside (d : bytes) (lo : Z) :
  0 <= lo <= Z.of_nat (length d) ->
  slice_from d lo = skipn (Z.to_nat lo) d.
Proof.
  intros Hlo. unfold slice_from, clamp_index.
  destruct (Z.ltb_spec lo 0); [lia|]. now rewrite Z.min_l by lia.
Qed.

(** ** What the extraction loop cuts out *)

Lemma extracted_frame_delimited (d : bytes) :
  can_extract d = true ->
  delimited (slice d (find SOI d) (find EOI d + 2)).
Proof.
  intros E. pose proof (can_extract_true d E) as (H1 & H2 & H3).
  set (s := find SOI d) in *. set (e := find EOI d) in *.
  rewrite slice_inside by lia.
  set (m := Z.to_nat (e + 2 - s)).
  set (x := skipn (Z.to_nat s) d).
  assert (Hxs : find SOI x = 0).
  { unfold x. rewrite find_skipn; fold s; lia. }
  assert (Hxe : find EOI x = e - s).
  { unfold x. rewrite find_skipn; fold e; lia. }
  assert (Hxl : length x = Z.to_nat (Z.of_nat (length d) - s)).
  { unfold x. rewrite length_skipn. lia. }
  set (f := firstn m x).
  assert (Hfl : length f = m).
  { unfold f. rewrite length_firstn. lia. }
  assert (Hfs : find SOI f = 0).
  { unfold f. rewrite find_firstn; rewrite Hxs; simpl; lia. }
  assert (Hfe : find EOI f = e - s).
  { unfold f. rewrite find_firstn; rewrite Hxe; simpl; lia. }
  pose proof (find_zero SOI f Hfs) as Hstart.
  apply startswith_split in Hstart. simpl length in Hstart.
  assert (Hend : startswith EOI (skipn (Z.to_nat (e - s)) f) = true).
  { apply find_zero. rewrite find_skipn; rewrite Hfe; lia. }
  apply startswith_split in Hend. simpl length in Hend.
  assert (Hlast : skipn 2 (skipn (Z.to_nat (e - s)) f) = []).
  { apply skipn_all2. rewrite length_skipn. lia. }
  rewrite Hlast in Hend.
  assert (Hm4 : (4 <= m)%nat).
  { destruct (Nat.le_gt_cases 4 m) as [|Hlt]; [assumption|exfalso].
    assert (Hm3 : m = 3%nat) by lia.
    assert (Hes : e - s = 1) by lia.
    rewrite Hes in Hend. rewrite Hstart in Hend.
    simpl in Hend. destruct (skipn 2 f); discriminate. }
  exists (firstn (m - 4) (skipn 2 f)).
  split; [|split; [exact Hfs|]].
  - rewrite Hstart at 1. f_equal.
    rewrite <- (firstn_skipn (m - 4) (skipn 2 f)) at 1. f_equal.
    rewrite skipn_skipn.
    replace (m - 4 + 2)%nat with (Z.to_nat (e - s)) by lia. exact Hend.
  - rewrite Hfe, length_firstn, length_skipn. lia.
Qed.

Lemma split_frames_delimited (d : bytes) : Forall delimited (fst (split d)).
Proof.
  remember (length d) as n eqn:Hn. revert d Hn.
  induction n as [n IH] using lt_wf_ind. intros d Hn.
  rewrite split_unfold. destruct (can_extract d) eqn:E; [|constructor].
  cbn [fst]. constructor; [now apply extracted_frame_delimited|].
  pose proof (can_extract_shrinks d E).
  apply (IH (length (slice_from d (find EOI d + 2)))); subst; auto.
Qed.

(** ** The reader, one chunk at a time *)

Lemma reader_chunk env (t : reader_tick) (ticks : list reader_tick)
  (st : reader_state) (b : byte) (c : bytes) :
  (length (queue st) <= FRAME_BUFFER_SIZE)%nat ->
  stop_seen t = false -> read t = Chunk (b :: c) ->
  mjpeg_frame_reader env (t :: ticks) st
  = mjpeg_frame_reader env ticks (after_chunk env st (b :: c)).
Proof.
  intros Hq Hs Hr. simpl. rewrite Hs, Hr.
  rewrite extract_frames_split by exact Hq. reflexivity.
Qed.

Lemma after_chunk_bounded env (st : reader_state) (c : bytes) :
  (length (queue st) <= FRAME_BUFFER_SIZE)%nat ->
  (length (queue (after_chunk env st c)) <= FRAME_BUFFER_SIZE)%nat.
Proof. intros Hq. now apply submit_all_bounded. Qed.

(** A property of the state that every chunk keeps is kept by the whole
    run, whatever ends it. *)
Lemma reader_invariant env (P : reader_state -> Prop) :
  (forall st c, (length (queue st) <= FRAME_BUFFER_SIZE)%nat -> P st ->
                c <> [] -> P (after_chunk env st c)) ->
  forall ticks st,
  (length (queue st) <= FRAME_BUFFER_SIZE)%nat -> P st ->
  P (mjpeg_frame_reader env ticks st) /\
  (length (queue (mjpeg_frame_reader env ticks st)) <= FRAME_BUFFER_SIZE)%nat.
Proof.
  intros Hstep. induction ticks as [|t ticks IH]; intros st Hq HP;
    [simpl; auto|].
  destruct (stop_seen t) eqn:Hs; [simpl; rewrite Hs; auto|].
  destruct (read t) as [[|b c]|] eqn:Hr;
    try solve [simpl; rewrite Hs, Hr; auto].
  rewrite (reader_chunk env t ticks st b c Hq Hs Hr).
  apply IH; [now apply after_chunk_bounded|].
  apply Hstep; auto. discriminate.
Qed.

(** X1: whatever the source delivers and whatever the consumers do in
    between, the reader never leaves more than [FRAME_BUFFER_SIZE] frames in
    the queue. *)
Theorem reader_keeps_queue_within_capacity (env : nat -> interference)
  (ticks : list reader_tick) (st : reader_state) :
  (length (queue st) <= FRAME_BUFFER_SIZE)%nat ->
  (length (queue (mjpeg_frame_reader env ticks st)) <= FRAME_BUFFER_SIZE)%nat.
Proof.
  intros Hq.
  now apply (reader_invariant env (fun _ => True) (fun _ _ _ _ _ => I)).
Qed.

Lemma reader_keeps_queue_within_capacity_witness :
  (length (queue (mjpeg_frame_reader (fun _ => quiet)
                    (feed (repeat [xff; xd8; xff; xd9] 25)) reader_init))
   <= FRAME_BUFFER_SIZE)%nat.
Proof.
  apply (reader_keeps_queue_within_capacity (fun _ => quiet)
           (feed (repeat [xff; xd8; xff; xd9] 25)) reader_init).
  simpl. apply Nat.le_0_l.
Defined.

(** X2: every frame the reader submits, on any input whatsoever, starts
    with the start marker, ends with the end marker, and holds no end marker
    before its last two bytes. *)
Theorem submitted_frames_are_delimited (env : nat -> interference)
  (ticks : list reader_tick) :
  Forall delimited (submitted (mjpeg_frame_reader env ticks reader_init)).
Proof.
  apply (reader_invariant env (fun st => Forall delimited (submitted st))).
  - intros st c _ HP _. cbn [after_chunk submitted].
    apply Forall_app. split; [exact HP|apply split_frames_delimited].
  - simpl. apply Nat.le_0_l.
  - constructor.
Qed.

(** X3: after every chunk the reader has handled, the accumulation buffer
    holds no extractable frame: a frame is submitted in the very turn whose
    read completes it. *)
Theorem no_complete_frame_left_waiting (env : nat -> interference)
  (ticks : list reader_tick) (st : reader_state) :
  (length (queue st) <= FRAME_BUFFER_SIZE)%nat ->
  can_extract (jpeg_data st) = false ->
  can_extract (jpeg_data (mjpeg_frame_reader env ticks st)) = false.
Proof.
  intros Hq Hst.
  apply (reader_invariant env
           (fun st => can_extract (jpeg_data st) = false)); auto.
  intros st' c _ _ _. cbn [after_chunk jpeg_data]. apply split_done.
Qed.

Lemma no_complete_frame_left_waiting_witness :
  can_extract
    (jpeg_data (mjpeg_frame_reader (fun _ => quiet)
                  (feed [[xff; xd8; x01]; [xff; xd9; xff; xd8; x02]])
                  reader_init)) = false.
Proof.
  apply (no_complete_frame_left_waiting (fun _ => quiet)
           (feed [[xff; xd8; x01]; [xff; xd9; xff; xd8; x02]]) reader_init).
  - simpl. apply Nat.le_0_l.
  - reflexivity.
Defined.

(** ** Chunk sizes, the end of the source, and truncated frames *)

Lemma concat_nonempty_nil (chunks : list bytes) :
  Forall (fun c => c <> []) chunks -> concat chunks = [] -> chunks = [].
Proof.
  intros Hne Hc. destruct chunks as [|c chunks]; [reflexivity|].
  inversion Hne as [|? ? Hc' _]; subst. simpl in Hc.
  apply app_eq_nil in Hc as [Hc _]. contradiction.
Qed.

(** X4: how the source cuts its bytes into reads does not matter: two
    sequences of non-empty chunks with the same concatenation leave the
    reader in the same state (same frames submitted, same queue, same
    bytes left over). *)
Theorem reader_ignores_chunk_sizes (env : nat -> interference)
  (chunks1 chunks2 : list bytes) (st : reader_state) :
  (length (queue st) <= FRAME_BUFFER_SIZE)%nat ->
  Forall (fun c => c <> []) chunks1 ->
  Forall (fun c => c <> []) chunks2 ->
  concat chunks1 = concat chunks2 ->
  mjpeg_frame_reader env (feed chunks1) st
  = mjpeg_frame_reader env (feed chunks2) st.
Proof.
  intros Hq H1 H2 Hcat.
  destruct chunks1 as [|c1 chunks1], chunks2 as [|c2 chunks2].
  - reflexivity.
  - symmetry in Hcat. now rewrite (concat_nonempty_nil _ H2 Hcat).
  - now rewrite (concat_nonempty_nil _ H1 Hcat).
  - rewrite !reader_feed by assumption. now rewrite Hcat.
Qed.

Lemma reader_ignores_chunk_sizes_witness :
  mjpeg_frame_reader (fun _ => quiet)
    (feed [[x00; xff]; [xd8; x01; xff]; [xd9; xff; xd8; xff; xd9; x02]])
    reader_init
  = mjpeg_frame_reader (fun _ => quiet)
      (feed [[x00; xff; xd8; x01; xff; xd9; xff; xd8; xff; xd9; x02]])
      reader_init.
Proof.
  apply (reader_ignores_chunk_sizes (fun _ => quiet)
           [[x00; xff]; [xd8; x01; xff]; [xd9; xff; xd8; xff; xd9; x02]]
           [[x00; xff; xd8; x01; xff; xd9; xff; xd8; xff; xd9; x02]]
           reader_init).
  - simpl. apply Nat.le_0_l.
  - repeat constructor; discriminate.
  - repeat constructor; discriminate.
  - reflexivity.
Defined.

(** X5: the reader's loop ends at the first turn that sees the stop signal,
    gets an empty read (source closed) or a read error; nothing the source
    would deliver after that turn is read or submitted. *)
Theorem reader_stops_at_end_of_source (env : nat -> interference)
  (before after : list reader_tick) (t : reader_tick) (st : reader_state) :
  ends_reader t ->
  mjpeg_frame_reader env (before ++ t :: after) st
  = mjpeg_frame_reader env before st.
Proof.
  intros Hend. revert st.
  induction before as [|t0 before IH]; intros st.
  - simpl. destruct Hend as [H|[H|H]]; rewrite H; [reflexivity| |];
      now destruct (stop_seen t).
  - simpl. destruct (stop_seen t0); [reflexivity|].
    destruct (read t0) as [[|b c]|]; try reflexivity.
    destruct (extract_frames _ _ _) as [st' raised].
    destruct raised; [reflexivity|apply IH].
Qed.

Lemma reader_stops_at_end_of_source_witness :
  mjpeg_frame_reader (fun _ => quiet)
    (feed [[xff; xd8; xff; xd9]]
     ++ {| stop_seen := false; read := Chunk [] |}
        :: feed [[xff; xd8; x07; xff; xd9]]) reader_init
  = mjpeg_frame_reader (fun _ => quiet) (feed [[xff; xd8; xff; xd9]])
      reader_init.
Proof.
  apply (reader_stops_at_end_of_source (fun _ => quiet)
           (feed [[xff; xd8; xff; xd9]]) (feed [[xff; xd8; x07; xff; xd9]])
           {| stop_seen := false; read := Chunk [] |} reader_init).
  right. left. reflexivity.
Defined.

Lemma split_without_end (d : bytes) : find EOI d = -1 -> split d = ([], d).
Proof.
  intros H. rewrite split_unfold. unfold can_extract. rewrite H.
  simpl. now rewrite andb_false_r.
Qed.

Lemma find_EOI_truncated (g body : bytes) :
  find EOI g = -1 -> find EOI body = -1 -> find EOI (g ++ SOI ++ body) = -1.
Proof.
  intros Hg Hb. unfold find, SOI, EOI in *. simpl app.
  rewrite find_from_skip by (discriminate || lia || assumption).
  rewrite find_from_cons.
  replace (startswith [xff; xd9] (xff :: xd8 :: body)) with false
    by reflexivity.
  rewrite find_from_cons.
  replace (startswith [xff; xd9] (xd8 :: body)) with false by reflexivity.
  rewrite find_from_shift by lia. fold (find [xff; xd9] body).
  unfold find. now rewrite Hb.
Qed.

Lemma trailing_marker_free (pairs : list (bytes * bytes)) :
  forall g0, well_formed_pairs g0 pairs -> marker_free (trailing g0 pairs).
Proof.
  induction pairs as [|[body gap] pairs IH]; intros g0 [Hg Hp]; simpl.
  - exact Hg.
  - inversion Hp as [|? ? [_ Hgap] Hp']; subst. apply IH. now split.
Qed.

(** X6: when the source closes in the middle of a frame, a start marker
    with no end marker after it, the reader submits the complete frames
    before it and nothing for the fragment, which stays in the accumulation
    buffer. *)
Theorem truncated_trailing_frame_is_not_emitted (env : nat -> interference)
  (g0 : bytes) (pairs : list (bytes * bytes)) (fragment : bytes)
  (chunks : list bytes) :
  well_formed_pairs g0 pairs ->
  find EOI fragment = -1 ->
  Forall (fun c => c <> []) chunks ->
  concat chunks = jpeg_stream g0 pairs ++ SOI ++ fragment ->
  submitted (mjpeg_frame_reader env (feed chunks) reader_init)
    = map frame_of pairs /\
  jpeg_data (mjpeg_frame_reader env (feed chunks) reader_init)
    = trailing g0 pairs ++ SOI ++ fragment.
Proof.
  intros Hwf Hfrag Hne Hcat.
  destruct chunks as [|c chunks].
  - exfalso. simpl in Hcat. symmetry in Hcat.
    apply app_eq_nil in Hcat as [_ Hcat]. discriminate.
  - rewrite reader_feed by (simpl; auto using Nat.le_0_l).
    cbn [reader_init jpeg_data queue submitted app].
    rewrite Hcat, split_app, split_jpeg_stream by exact Hwf.
    cbn [fst snd].
    destruct (trailing_marker_free pairs g0 Hwf) as [_ Ht].
    rewrite split_without_end by (now apply find_EOI_truncated).
    cbn [fst snd]. now rewrite app_nil_r.
Qed.

Lemma truncated_trailing_frame_is_not_emitted_witness :
  submitted (mjpeg_frame_reader (fun _ => quiet)
               (feed [[x00; xff; xd8; x01; xff]; [xd9; x02; xff; xd8; x03]])
               reader_init)
    = map frame_of [([x01], [x02])] /\
  jpeg_data (mjpeg_frame_reader (fun _ => quiet)
               (feed [[x00; xff; xd8; x01; xff]; [xd9; x02; xff; xd8; x03]])
               reader_init)
    = trailing [x00] [([x01], [x02])] ++ SOI ++ [x03].
Proof.
  apply (truncated_trailing_frame_is_not_emitted (fun _ => quiet)
           [x00] [([x01], [x02])] [x03]
           [[x00; xff; xd8; x01; xff]; [xd9; x02; xff; xd8; x03]]).
  - split; [split; reflexivity|]. repeat constructor.
  - reflexivity.
  - repeat constructor; discriminate.
  - reflexivity.
Defined.

(** ** Where the bytes of the source go *)

Lemma slice_decompose (d : bytes) (lo hi : Z) :
  0 <= lo <= hi -> hi <= Z.of_nat (length d) ->
  d = firstn (Z.to_nat lo) d ++ slice d lo hi ++ slice_from d hi.
Proof.
  intros Hlo Hhi. rewrite slice_inside, slice_from_inside by lia.
  rewrite <- (firstn_skipn (Z.to_nat lo) d) at 1. f_equal.
  rewrite <- (firstn_skipn (Z.to_nat (hi - lo)) (skipn (Z.to_nat lo) d)) at 1.
  f_equal. rewrite skipn_skipn. f_equal. lia.
Qed.

Lemma split_weave (d : bytes) :
  exists gaps,
    length gaps = length (fst (split d)) /\
    d = weave gaps (fst (split d)) ++ snd (split d) /\
    Forall (fun g => find SOI g = -1) gaps.
Proof.
  remember (length d) as n eqn:Hn. revert d Hn.
  induction n as [n IH] using lt_wf_ind. intros d Hn.
  rewrite split_unfold. destruct (can_extract d) eqn:E.
  - pose proof (can_extract_true d E) as (H1 & H2 & H3).
    pose proof (can_extract_shrinks d E) as Hs.
    destruct (IH (length (slice_from d (find EOI d + 2)))
                ltac:(subst; exact Hs) _ eq_refl) as (gaps & Hl & Hd & Hg).
    exists (firstn (Z.to_nat (find SOI d)) d :: gaps). cbn [fst snd].
    split; [simpl; now rewrite Hl|]. split.
    + cbn [weave]. rewrite <- !app_assoc, <- Hd.
      apply slice_decompose; lia.
    + constructor; [|exact Hg].
      destruct (find_range SOI (firstn (Z.to_nat (find SOI d)) d))
        as [F|[F1 F2]]; [exact F|exfalso].
      assert (Hp : find SOI (firstn (Z.to_nat (find SOI d)) d ++
                             skipn (Z.to_nat (find SOI d)) d)
                   = find SOI (firstn (Z.to_nat (find SOI d)) d))
        by (apply find_app_found; lia).
      rewrite firstn_skipn in Hp. rewrite length_firstn in F2.
      simpl in F2. lia.
  - exists []. simpl. auto.
Qed.

(** X7: the reader neither invents nor duplicates nor reorders bytes: the
    bytes read from the source are, in order, the frames submitted, each
    preceded by the bytes skipped before its start marker (which hold no
    start marker), followed by the bytes still in the accumulation
    buffer. *)
Theorem source_is_frames_gaps_and_rest (env : nat -> interference)
  (chunks : list bytes) :
  Forall (fun c => c <> []) chunks ->
  exists gaps,
    length gaps
    = length (submitted (mjpeg_frame_reader env (feed chunks) reader_init)) /\
    concat chunks
    = weave gaps (submitted (mjpeg_frame_reader env (feed chunks) reader_init))
      ++ jpeg_data (mjpeg_frame_reader env (feed chunks) reader_init) /\
    Forall (fun g => find SOI g = -1) gaps.
Proof.
  intros Hne. destruct chunks as [|c chunks].
  - exists []. simpl. auto.
  - rewrite reader_feed by (simpl; auto using Nat.le_0_l).
    cbn [reader_init jpeg_data queue submitted app].
    apply split_weave.
Qed.

Lemma source_is_frames_gaps_and_rest_witness :
  exists gaps,
    length gaps
    = length (submitted (mjpeg_frame_reader (fun _ => quiet)
                (feed [[x00; xff; xd8; x01; xff]; [xd9; x02; xff; xd8; x03]])
                reader_init)) /\
    concat [[x00; xff; xd8; x01; xff]; [xd9; x02; xff; xd8; x03]]
    = weave gaps
        (submitted (mjpeg_frame_reader (fun _ => quiet)
                (feed [[x00; xff; xd8; x01; xff]; [xd9; x02; xff; xd8; x03]])
                reader_init))
      ++ jpeg_data (mjpeg_frame_reader (fun _ => quiet)
                (feed [[x00; xff; xd8; x01; xff]; [xd9; x02; xff; xd8; x03]])
                reader_init) /\
    Forall (fun g => find SOI g = -1) gaps.
Proof.
  apply (source_is_frames_gaps_and_rest (fun _ => quiet)
           [[x00; xff; xd8; x01; xff]; [xd9; x02; xff; xd8; x03]]).
  repeat constructor; discriminate.
Defined.

(** ** The put path under any consumer activity *)

Lemma tl_skipn {A : Type} (k : nat) (l : list A) :
  tl (skipn k l) = skipn (S k) l.
Proof.
  revert l; induction k as [|k IH]; intros [|a l]; simpl; auto.
Qed.

(** X8: whatever the consumers do around one insertion by the reader, the
    put path never raises and keeps the queue within capacity; it either
    leaves the new frame as the newest entry behind what is left of the old
    entries (only oldest entries are gone), or, having found the queue
    emptied, leaves it empty; and with no consumer active the frame is
    always inserted. *)
Theorem put_path_outcomes (i : interference) (q : frame_queue)
  (frame : Frame) :
  (length q <= FRAME_BUFFER_SIZE)%nat ->
  snd (reader_put i q frame) <> PutRaised /\
  (length (fst (reader_put i q frame)) <= FRAME_BUFFER_SIZE)%nat /\
  (snd (reader_put i q frame) = Discarded ->
   fst (reader_put i q frame) = []) /\
  (snd (reader_put i q frame) <> Discarded ->
   exists k, fst (reader_put i q frame) = skipn k q ++ [frame]) /\
  (i = quiet -> snd (reader_put i q frame) <> Discarded).
Proof.
  intros Hq.
  destruct (reader_put_bounded i q frame Hq) as [Hb Hr].
  split; [exact Hr|]. split; [exact Hb|].
  unfold reader_put, put_timeout, consumers_take in *.
  destruct (Nat.ltb_spec (length q) FRAME_BUFFER_SIZE) as [Hlt|Hge].
  - cbn [fst snd]. repeat split; try discriminate.
    intros _. now exists 0%nat.
  - destruct (Nat.ltb_spec (length (skipn (during_wait i) q))
                FRAME_BUFFER_SIZE) as [Hw|Hw].
    + cbn [fst snd]. repeat split; try discriminate.
      intros _. now exists (during_wait i).
    + rewrite skipn_skipn.
      destruct (skipn (before_get i + during_wait i) q) as [|f0 q2] eqn:Eq.
      * cbn [get_nowait fst snd]. repeat split; auto.
        -- intros H. now contradiction H.
        -- intros -> . cbn [quiet before_get during_wait] in Eq.
           simpl in Eq. subst q.
           unfold FRAME_BUFFER_SIZE in Hge. simpl in Hge. lia.
      * cbn [get_nowait]. unfold put_nowait in *.
        assert (Hq2 : q2 = skipn (S (before_get i + during_wait i)) q)
          by (rewrite <- tl_skipn, Eq; reflexivity).
        destruct (Nat.ltb_spec (length (skipn (before_put i) q2))
                    FRAME_BUFFER_SIZE) as [Hp|Hp].
        -- cbn [fst snd]. repeat split; try discriminate.
           intros _. rewrite Hq2, skipn_skipn. eauto.
        -- exfalso. rewrite Hq2, !length_skipn in Hp.
           unfold FRAME_BUFFER_SIZE in *. lia.
Qed.

Lemma put_path_outcomes_witness :
  snd (reader_put {| during_wait := 0; before_get := 3; before_put := 2 |}
         (repeat [xff; xd8; xff; xd9] 20) [xff; xd8; x01; xff; xd9])
    <> PutRaised /\
  (length (fst (reader_put
                  {| during_wait := 0; before_get := 3; before_put := 2 |}
                  (repeat [xff; xd8; xff; xd9] 20)
                  [xff; xd8; x01; xff; xd9]))
   <= FRAME_BUFFER_SIZE)%nat /\
  (snd (reader_put {| during_wait := 0; before_get := 3; before_put := 2 |}
          (repeat [xff; xd8; xff; xd9] 20) [xff; xd8; x01; xff; xd9])
   = Discarded ->
   fst (reader_put {| during_wait := 0; before_get := 3; before_put := 2 |}
          (repeat [xff; xd8; xff; xd9] 20) [xff; xd8; x01; xff; xd9]) = []) /\
  (snd (reader_put {| during_wait := 0; before_get := 3; before_put := 2 |}
          (repeat [xff; xd8; xff; xd9] 20) [xff; xd8; x01; xff; xd9])
   <> Discarded ->
   exists k,
     fst (reader_put {| during_wait := 0; before_get := 3; before_put := 2 |}
            (repeat [xff; xd8; xff; xd9] 20) [xff; xd8; x01; xff; xd9])
     = skipn k (repeat [xff; xd8; xff; xd9] 20)
       ++ [[xff; xd8; x01; xff; xd9]]) /\
  ({| during_wait := 0; before_get := 3; before_put := 2 |} = quiet ->
   snd (reader_put {| during_wait := 0; before_get := 3; before_put := 2 |}
          (repeat [xff; xd8; xff; xd9] 20) [xff; xd8; x01; xff; xd9])
   <> Discarded).
Proof.
  apply (put_path_outcomes
           {| during_wait := 0; before_get := 3; before_put := 2 |}
           (repeat [xff; xd8; xff; xd9] 20) [xff; xd8; x01; xff; xd9]).
  rewrite repeat_length. apply Nat.le_refl.
Defined.

(** ** First in, first out *)

Lemma run_single_consumer (n : nat) :
  forall s,
  got_a (run_schedule (repeat ConsumerA n) s)
  = got_a s ++ firstn n (shared s) /\
  got_b (run_schedule (repeat ConsumerA n) s) = got_b s /\
  shared (run_schedule (repeat ConsumerA n) s) = skipn n (shared s).
Proof.
  unfold run_schedule.
  induction n as [|n IH]; intros [q a b]; simpl.
  - now rewrite app_nil_r.
  - unfold take_step at 2 4 6. unfold take. cbn [shared got_a got_b].
    destruct q as [|f q]; cbn [get_nowait].
    + destruct (IH {| shared := []; got_a := a; got_b := b |})
        as (H1 & H2 & H3). cbn [shared got_a got_b] in *.
      rewrite firstn_nil in H1. rewrite skipn_nil in H3. auto.
    + destruct (IH {| shared := q; got_a := a ++ [f]; got_b := b |})
        as (H1 & H2 & H3). cbn [shared got_a got_b] in *.
      rewrite <- app_assoc in H1. auto.
Qed.

(** X9: as long as no more than [FRAME_BUFFER_SIZE] frames are put and no
    consumer interferes, the put path drops nothing, and a consumer that
    then takes as many times as frames were put receives exactly those
    frames in the order they were put, leaving the queue empty; one more
    take finds it empty. *)
Theorem queue_is_fifo_below_capacity (fs : list Frame) :
  (length fs <= FRAME_BUFFER_SIZE)%nat ->
  submit_all (fun _ => quiet) 0 [] fs = fs /\
  got_a (run_schedule (repeat ConsumerA (length fs))
           {| shared := submit_all (fun _ => quiet) 0 [] fs;
              got_a := []; got_b := [] |}) = fs /\
  shared (run_schedule (repeat ConsumerA (length fs))
            {| shared := submit_all (fun _ => quiet) 0 [] fs;
               got_a := []; got_b := [] |}) = [] /\
  take (shared (run_schedule (repeat ConsumerA (length fs))
                  {| shared := submit_all (fun _ => quiet) 0 [] fs;
                     got_a := []; got_b := [] |})) = None.
Proof.
  intros Hlen.
  assert (H : submit_all (fun _ => quiet) 0 [] fs = fs).
  { rewrite submit_all_quiet by (simpl; apply Nat.le_0_l).
    now apply lastn_short. }
  rewrite H.
  destruct (run_single_consumer (length fs)
              {| shared := fs; got_a := []; got_b := [] |})
    as (H1 & _ & H3).
  cbn [shared got_a app] in *. rewrite H1, H3, firstn_all, skipn_all.
  auto.
Qed.

Lemma queue_is_fifo_below_capacity_witness :
  submit_all (fun _ => quiet) 0 [] [[x01]; [x02]; [x03]]
  = [[x01]; [x02]; [x03]] /\
  got_a (run_schedule (repeat ConsumerA (length [[x01]; [x02]; [x03]]))
           {| shared := submit_all (fun _ => quiet) 0 []
                          [[x01]; [x02]; [x03]];
              got_a := []; got_b := [] |}) = [[x01]; [x02]; [x03]] /\
  shared (run_schedule (repeat ConsumerA (length [[x01]; [x02]; [x03]]))
            {| shared := submit_all (fun _ => quiet) 0 []
                           [[x01]; [x02]; [x03]];
               got_a := []; got_b := [] |}) = [] /\
  take (shared (run_schedule (repeat ConsumerA (length [[x01]; [x02]; [x03]]))
                  {| shared := submit_all (fun _ => quiet) 0 []
                                 [[x01]; [x02]; [x03]];
                     got_a := []; got_b := [] |})) = None.
Proof.
  apply (queue_is_fifo_below_capacity [[x01]; [x02]; [x03]]).
  simpl. unfold FRAME_BUFFER_SIZE. lia.
Defined.

(** ** The request handler beyond the two data endpoints *)

(** X10: only [/stream.mjpeg] takes frames from the queue: for every other
    path the handler returns at once without taking a frame and without
    looking at the queue, and for a path that is none of [/],
    [/stream.mjpeg] and [/ocr.txt] it sends the 404 error response and
    nothing of the register, followed by a blank line when the request
    carries a version and by nothing when it does not. *)
Theorem only_the_stream_path_takes_frames
  (response_head : Z -> bytes) (error_response : string -> Z -> bytes)
  (html_content : text) (version path : string) (latest : text)
  (ticks : list stream_tick) :
  path <> "/stream.mjpeg"%string ->
  snd (fst (do_GET response_head error_response html_content version path
              latest ticks)) = [] /\
  snd (do_GET response_head error_response html_content version path latest
         ticks) = true /\
  do_GET response_head error_response html_content version path latest ticks
    = do_GET response_head error_response html_content version path latest
        [] /\
  (path <> "/"%string -> path <> "/ocr.txt"%string ->
   forall latest',
   do_GET response_head error_response html_content version path latest'
     ticks
   = ({| request_version := version; headers_buffer := [];
         wfile := error_response version 404
                  ++ (if is_http09 version then [] else CRLF) |},
      [], true)).
Proof.
  intros Hstream. apply String.eqb_neq in Hstream.
  unfold do_GET. rewrite Hstream.
  destruct (String.eqb_spec path "/") as [E1|E1].
  - repeat split; auto. intros H. contradiction.
  - destruct (String.eqb_spec path "/ocr.txt") as [E2|E2].
    + repeat split; auto. intros _ H. contradiction.
    + repeat split; auto. intros _ _ _.
      unfold send_error, end_headers, wfile_write, handler_init.
      destruct (is_http09 version) eqn:Hv; with_version Hv; cbn [app];
        now rewrite ?app_nil_r.
Qed.

Lemma only_the_stream_path_takes_frames_witness :
  snd (fst (do_GET (fun _ => []) (fun _ _ => ascii_bytes "404") []
              "HTTP/0.9" "/favicon.ico" (text_of_string "secret")
              [ {| s_stop := false; s_get := Some [xff; xd8; xff; xd9];
                   s_writes_ok := 4 |} ])) = [] /\
  snd (do_GET (fun _ => []) (fun _ _ => ascii_bytes "404") []
         "HTTP/0.9" "/favicon.ico" (text_of_string "secret")
         [ {| s_stop := false; s_get := Some [xff; xd8; xff; xd9];
              s_writes_ok := 4 |} ]) = true /\
  do_GET (fun _ => []) (fun _ _ => ascii_bytes "404") []
    "HTTP/0.9" "/favicon.ico" (text_of_string "secret")
    [ {| s_stop := false; s_get := Some [xff; xd8; xff; xd9];
         s_writes_ok := 4 |} ]
  = do_GET (fun _ => []) (fun _ _ => ascii_bytes "404") []
      "HTTP/0.9" "/favicon.ico" (text_of_string "secret") [] /\
  ("/favicon.ico"%string <> "/"%string ->
   "/favicon.ico"%string <> "/ocr.txt"%string ->
   forall latest',
   do_GET (fun _ => []) (fun _ _ => ascii_bytes "404") []
     "HTTP/0.9" "/favicon.ico" latest'
     [ {| s_stop := false; s_get := Some [xff; xd8; xff; xd9];
          s_writes_ok := 4 |} ]
   = ({| request_version := "HTTP/0.9"; headers_buffer := [];
         wfile := (fun (_ : string) (_ : Z) => ascii_bytes "404")
                    "HTTP/0.9"%string 404
                  ++ (if is_http09 "HTTP/0.9" then [] else CRLF) |},
      [], true)).
Proof.
  apply (only_the_stream_path_takes_frames
           (fun _ => []) (fun _ _ => ascii_bytes "404") []
           "HTTP/0.9" "/favicon.ico" (text_of_string "secret")
           [ {| s_stop := false; s_get := Some [xff; xd8; xff; xd9];
                s_writes_ok := 4 |} ]).
  discriminate.
Defined.

(** ** What a client of the stream can receive *)

(** What one turn writes when a write fails is a proper prefix of the
    part. *)
Lemma send_part_failed (ok : nat) (frame : Frame) (version : string)
  (w : bytes) :
  snd (send_part ok frame
         {| request_version := version; headers_buffer := []; wfile := w |})
  = false ->
  exists p rest,
    wfile (fst (send_part ok frame
                  {| request_version := version; headers_buffer := [];
                     wfile := w |}))
    = w ++ p /\
    part_for version frame = p ++ rest /\ rest <> [].
Proof.
  unfold part_for. rewrite expected_part_layout. unfold bare_part.
  set (hdrs := (ascii_bytes ("Content-type" ++ ": " ++ "image/jpeg") ++ CRLF)
               ++ ascii_bytes ("Content-length" ++ ": "
                               ++ str_of_nat (length frame)) ++ CRLF).
  assert (Hcrlf : CRLF <> []) by discriminate.
  assert (Htail : frame ++ CRLF <> []).
  { intros Hnil. apply app_eq_nil in Hnil as [_ Hnil]. discriminate. }
  assert (Hb : forall x : bytes, MJPEG_BOUNDARY ++ x <> []) by discriminate.
  assert (Hb' : forall x : bytes, (MJPEG_BOUNDARY ++ CRLF) ++ x <> [])
    by discriminate.
  assert (Hh : forall x : bytes, hdrs ++ x <> []) by discriminate.
  destruct (is_http09 version) eqn:E.
  - destruct ok as [|[|[|ok]]]; run_part E; intros Hs; try discriminate.
    + exists [], (MJPEG_BOUNDARY ++ CRLF ++ frame ++ CRLF).
      rewrite app_nil_r. auto.
    + exists (MJPEG_BOUNDARY ++ CRLF), (frame ++ CRLF).
      repeat split; auto; try (now rewrite <- !app_assoc).
    + exists (MJPEG_BOUNDARY ++ CRLF ++ frame), CRLF.
      repeat split; auto; try (now rewrite <- !app_assoc).
  - destruct ok as [|[|[|[|ok]]]]; run_part E; intros Hs; try discriminate.
    + exists [], ((MJPEG_BOUNDARY ++ CRLF) ++ hdrs ++ CRLF ++ frame ++ CRLF).
      rewrite app_nil_r. auto.
    + exists (MJPEG_BOUNDARY ++ CRLF), (hdrs ++ CRLF ++ frame ++ CRLF).
      repeat split; try reflexivity. apply Hh.
    + exists ((MJPEG_BOUNDARY ++ CRLF) ++ hdrs ++ CRLF), (frame ++ CRLF).
      repeat split; auto; unfold hdrs; cbn [app];
        try (now rewrite <- !app_assoc).
    + exists ((MJPEG_BOUNDARY ++ CRLF) ++ hdrs ++ CRLF ++ frame), CRLF.
      repeat split; auto; unfold hdrs; cbn [app];
        try (now rewrite <- !app_assoc).
Qed.

(** The body of the stream is whole parts, then at most one truncated
    part where a write failed. *)
Lemma stream_loop_layout (version : string) (ticks : list stream_tick) :
  forall w taken,
  exists sent partial,
    wfile (fst (fst (stream_loop ticks
                       {| request_version := version; headers_buffer := [];
                          wfile := w |} taken)))
    = w ++ concat (map (part_for version) sent) ++ partial /\
    ((partial = [] /\
      snd (fst (stream_loop ticks
                  {| request_version := version; headers_buffer := [];
                     wfile := w |} taken))
      = taken ++ sent /\
      exists k, sent = firstn k (frames_got ticks)) \/
     (exists f rest k,
        snd (fst (stream_loop ticks
                    {| request_version := version; headers_buffer := [];
                       wfile := w |} taken))
        = taken ++ sent ++ [f] /\
        sent ++ [f] = firstn k (frames_got ticks) /\
        part_for version f = partial ++ rest /\ rest <> [] /\
        snd (stream_loop ticks
               {| request_version := version; headers_buffer := [];
                  wfile := w |} taken) = true)).
Proof.
  induction ticks as [|t ticks IH]; intros w taken.
  - exists [], []. simpl. rewrite !app_nil_r. split; [reflexivity|].
    left. repeat split. now exists 0%nat.
  - cbn [stream_loop]. rewrite frames_got_cons.
    destruct (s_stop t).
    + exists [], []. simpl. rewrite !app_nil_r. split; [reflexivity|].
      left. repeat split. now exists 0%nat.
    + destruct (s_get t) as [frame|]; [|apply IH].
      destruct (send_part (s_writes_ok t) frame
                  {| request_version := version; headers_buffer := [];
                     wfile := w |})
        as [h' ok] eqn:Es.
      destruct ok.
      * pose proof (send_part_sent (s_writes_ok t) frame version w) as Hs.
        rewrite Es in Hs. cbn [fst snd] in Hs. rewrite (Hs eq_refl).
        destruct (IH (w ++ part_for version frame) (taken ++ [frame]))
          as (sent & partial & Hw & Hcase).
        exists (frame :: sent), partial. split.
        { rewrite Hw. cbn [map concat]. now rewrite <- !app_assoc. }
        destruct Hcase as [(Hp & Ht & k & Hk)
                          |(f & rest & k & Ht & Hk & He & Hr & Hl)].
        -- left. repeat split; auto.
           ++ rewrite Ht. now rewrite <- app_assoc.
           ++ exists (S k). simpl. now rewrite Hk.
        -- right. exists f, rest, (S k). repeat split; auto.
           ++ rewrite Ht. now rewrite <- app_assoc.
           ++ simpl. now rewrite <- Hk.
      * pose proof (send_part_failed (s_writes_ok t) frame version w) as Hf.
        rewrite Es in Hf. cbn [fst snd] in Hf.
        destruct (Hf eq_refl) as (p & rest & Hw & He & Hr).
        exists [], p. cbn [fst snd map concat app]. split; [exact Hw|].
        right. exists frame, rest, 1%nat. repeat split; auto.
Qed.

(** X11: whatever happens on the connection and whatever the request
    version, what a client of [/stream.mjpeg] has received after the
    response head is a sequence of whole parts, one per frame taken and in
    the order taken, followed by at most one truncated part: a proper
    prefix of the part of the last frame taken, present only when a write
    failed and the loop was left.  A part is the boundary line, the two
    part headers, a blank line, the frame and CRLF when the request carries
    a version, and the boundary line, the frame and CRLF when it does not.
    The frames taken are always a prefix of the frames the queue handed to
    this consumer. *)
Theorem stream_body_is_whole_parts
  (response_head : Z -> bytes) (error_response : string -> Z -> bytes)
  (html_content : text) (version : string) (latest : text)
  (ticks : list stream_tick) :
  exists sent partial,
    wfile (fst (fst (do_GET response_head error_response html_content
                       version "/stream.mjpeg" latest ticks)))
    = stream_head_for response_head version
      ++ concat (map (part_for version) sent) ++ partial /\
    ((partial = [] /\
      snd (fst (do_GET response_head error_response html_content
                  version "/stream.mjpeg" latest ticks)) = sent /\
      exists k, sent = firstn k (frames_got ticks)) \/
     (exists f rest k,
        snd (fst (do_GET response_head error_response html_content
                    version "/stream.mjpeg" latest ticks)) = sent ++ [f] /\
        sent ++ [f] = firstn k (frames_got ticks) /\
        part_for version f = partial ++ rest /\ rest <> [] /\
        snd (do_GET response_head error_response html_content
               version "/stream.mjpeg" latest ticks) = true)) /\
    (version <> "HTTP/0.9"%string ->
     stream_head_for response_head version
     = response_head 200 ++ expected_stream_headers /\
     forall f, part_for version f = expected_part f) /\
    (version = "HTTP/0.9"%string ->
     stream_head_for response_head version = [] /\
     forall f, part_for version f = MJPEG_BOUNDARY ++ CRLF ++ f ++ CRLF).
Proof.
  rewrite do_GET_stream.
  destruct (stream_loop_layout version ticks
              (stream_head_for response_head version) [])
    as (sent & partial & Hw & Hcase).
  exists sent, partial. split; [exact Hw|]. split; [exact Hcase|].
  unfold stream_head_for, part_for. split.
  - intros Hv. apply is_http09_false in Hv. rewrite Hv. auto.
  - intros ->. auto.
Qed.

(** ** The consumers and the stop signal *)

(** X12: the sampling loop and the streaming loop end at the first turn
    whose loop head sees the stop signal: the state is the one the turns
    before it produced, and no frame offered afterwards is taken. *)
Theorem consumer_loops_end_at_stop :
  (forall before t after st,
     o_stop t = true ->
     ocr_thread_func (before ++ t :: after) st
     = (fst (ocr_thread_func before st), true)) /\
  (forall before t after h taken,
     s_stop t = true ->
     stream_loop (before ++ t :: after) h taken
     = (fst (stream_loop before h taken), true)).
Proof.
  split.
  - intros before t after st Hstop. revert st.
    induction before as [|t0 before IH]; intros st; simpl.
    + now rewrite Hstop.
    + destruct (o_stop t0); [reflexivity|].
      destruct (o_get t0); apply IH.
  - intros before t after h taken Hstop. revert h taken.
    induction before as [|t0 before IH]; intros h taken; simpl.
    + now rewrite Hstop.
    + destruct (s_stop t0); [reflexivity|].
      destruct (s_get t0) as [frame|]; [|apply IH].
      destruct (send_part _ _ _) as [h' sent].
      destruct sent; [apply IH|reflexivity].
Qed.

Lemma consumer_loops_end_at_stop_witness :
  ocr_thread_func
    ([ {| o_stop := false; o_get := Some [xff; xd8; xff; xd9];
          o_engine := OcrFailed |} ]
     ++ {| o_stop := true; o_get := Some [xff; xd8; x01; xff; xd9];
           o_engine := OcrFailed |}
        :: [ {| o_stop := false; o_get := Some [xff; xd8; x02; xff; xd9];
                o_engine := OcrFailed |} ]) ocr_init
  = (fst (ocr_thread_func
            [ {| o_stop := false; o_get := Some [xff; xd8; xff; xd9];
                 o_engine := OcrFailed |} ] ocr_init), true).
Proof.
  apply (proj1 consumer_loops_end_at_stop
           [ {| o_stop := false; o_get := Some [xff; xd8; xff; xd9];
                o_engine := OcrFailed |} ]
           {| o_stop := true; o_get := Some [xff; xd8; x01; xff; xd9];
              o_engine := OcrFailed |}
           [ {| o_stop := false; o_get := Some [xff; xd8; x02; xff; xd9];
                o_engine := OcrFailed |} ] ocr_init).
  reflexivity.
Defined.

(** ** The sampling rate *)

Lemma div_step (k c : Z) :
  0 < k ->
  (c + 1) / k = c / k + (if (c + 1) mod k =? 0 then 1 else 0).
Proof.
  intros Hk.
  pose proof (Z.div_mod c k ltac:(lia)) as Hc.
  pose proof (Z.mod_pos_bound c k Hk) as Hb.
  pose proof (Z.div_mod (c + 1) k ltac:(lia)) as Hc1.
  pose proof (Z.mod_pos_bound (c + 1) k Hk) as Hb1.
  destruct (Z.eqb_spec ((c + 1) mod k) 0) as [E|E]; nia.
Qed.

Lemma every_kth_length (k : Z) (frames : list Frame) :
  0 < k -> forall count,
  Z.of_nat (length (every_kth k count frames))
  = (count + Z.of_nat (length frames)) / k - count / k.
Proof.
  intros Hk. induction frames as [|f frames IH]; intros count.
  - simpl. rewrite Z.add_0_r. lia.
  - cbn [every_kth].
    replace (count + Z.of_nat (length (f :: frames)))
      with (count + 1 + Z.of_nat (length frames)) by (simpl length; lia).
    pose proof (div_step k count Hk) as Hd.
    destruct ((count + 1) mod k =? 0); simpl length; rewrite ?Nat2Z.inj_succ;
      rewrite IH; lia.
Qed.

Lemma every_kth_picks (k : Z) (frames : list Frame) :
  forall count, 0 <= count ->
  Forall (fun p => fst p mod k = 0 /\ count < fst p /\
                   nth_error frames (Z.to_nat (fst p - count - 1))
                   = Some (snd p))
    (every_kth k count frames).
Proof.
  induction frames as [|f frames IH]; intros count Hc; cbn [every_kth].
  - constructor.
  - assert (Hrest : Forall (fun p => fst p mod k = 0 /\ count < fst p /\
                              nth_error (f :: frames)
                                (Z.to_nat (fst p - count - 1))
                              = Some (snd p))
                      (every_kth k (count + 1) frames)).
    { eapply Forall_impl; [|apply (IH (count + 1)); lia].
      intros [c g] (H1 & H2 & H3). cbn [fst snd] in *.
      repeat split; [assumption|lia|].
      replace (Z.to_nat (c - count - 1))
        with (S (Z.to_nat (c - (count + 1) - 1))) by lia.
      exact H3. }
    destruct (Z.eqb_spec ((count + 1) mod k) 0) as [E|E]; [|exact Hrest].
    constructor; [|exact Hrest]. cbn [fst snd].
    repeat split; [assumption|lia|].
    now replace (Z.to_nat (count + 1 - count - 1)) with 0%nat by lia.
Qed.

(** X13: in any run of the sampling loop from its start, the counter is
    the number of frames taken, the number of frames handed to recognition
    is that number divided by [OCR_FRAME_INTERVAL] (rounded down), and every
    frame handed to recognition is the frame taken at a count that is a
    multiple of the interval. *)
Theorem sampler_rate (ticks : list ocr_tick) :
  frame_count (fst (ocr_thread_func ticks ocr_init))
  = Z.of_nat (length (frames_taken (fst (ocr_thread_func ticks ocr_init)))) /\
  Z.of_nat (length (recognitions (fst (ocr_thread_func ticks ocr_init))))
  = frame_count (fst (ocr_thread_func ticks ocr_init)) / OCR_FRAME_INTERVAL /\
  Forall (fun p => fst p mod OCR_FRAME_INTERVAL = 0 /\ 0 < fst p /\
                   nth_error
                     (frames_taken (fst (ocr_thread_func ticks ocr_init)))
                     (Z.to_nat (fst p - 1)) = Some (snd p))
    (recognitions (fst (ocr_thread_func ticks ocr_init))).
Proof.
  destruct (ocr_thread_func_samples ticks ocr_init) as (new & H1 & H2 & H3).
  cbn [ocr_init frames_taken frame_count recognitions app] in H1, H2, H3.
  rewrite H1, H2, H3. split; [lia|]. split.
  - rewrite every_kth_length by (unfold OCR_FRAME_INTERVAL; lia).
    change (0 / OCR_FRAME_INTERVAL) with 0. lia.
  - eapply Forall_impl; [|apply (every_kth_picks OCR_FRAME_INTERVAL new 0); lia].
    intros [c g] (Hm & Hc & Hn). cbn [fst snd] in *.
    repeat split; auto.
    now replace (c - 1) with (c - 0 - 1) by lia.
Qed.

(** Runs that take the same frames agree on everything but the register. *)
Lemma same_frames_same_sampling (ticks ticks' : list ocr_tick) :
  same_frames ticks ticks' ->
  forall st st',
  frame_count st = frame_count st' ->
  frames_taken st = frames_taken st' ->
  recognitions st = recognitions st' ->
  frame_count (fst (ocr_thread_func ticks st))
  = frame_count (fst (ocr_thread_func ticks' st')) /\
  frames_taken (fst (ocr_thread_func ticks st))
  = frames_taken (fst (ocr_thread_func ticks' st')) /\
  recognitions (fst (ocr_thread_func ticks st))
  = recognitions (fst (ocr_thread_func ticks' st')) /\
  snd (ocr_thread_func ticks st) = snd (ocr_thread_func ticks' st').
Proof.
  induction 1 as [|t t' ticks ticks' [Hs Hg] _ IH]; intros st st' Hc Hf Hr.
  - simpl. auto.
  - simpl. rewrite <- Hs, <- Hg. destruct (o_stop t); [simpl; auto|].
    destruct (o_get t) as [frame|]; [|now apply IH].
    apply IH; unfold ocr_frame; rewrite <- Hc;
      destruct (_ =? 0); cbn [frame_count frames_taken recognitions];
      congruence.
Qed.

(** X14: what recognition answers, text, nothing or an exception, has no
    effect on the loop itself: two runs offered the same frames take the
    same frames, count the same, hand the same frames to recognition and
    end at the same turn.  A failing recognition never stops the loop. *)
Theorem recognition_outcome_does_not_affect_sampling
  (ticks ticks' : list ocr_tick) :
  same_frames ticks ticks' ->
  frame_count (fst (ocr_thread_func ticks ocr_init))
  = frame_count (fst (ocr_thread_func ticks' ocr_init)) /\
  frames_taken (fst (ocr_thread_func ticks ocr_init))
  = frames_taken (fst (ocr_thread_func ticks' ocr_init)) /\
  recognitions (fst (ocr_thread_func ticks ocr_init))
  = recognitions (fst (ocr_thread_func ticks' ocr_init)) /\
  snd (ocr_thread_func ticks ocr_init) = snd (ocr_thread_func ticks' ocr_init).
Proof.
  intros H. now apply same_frames_same_sampling.
Qed.

Lemma recognition_outcome_does_not_affect_sampling_witness :
  frame_count
    (fst (ocr_thread_func
            (map (fun n => {| o_stop := false; o_get := Some (repeat xff n);
                              o_engine := OcrFailed |}) (seq 1 31))
            ocr_init))
  = frame_count
      (fst (ocr_thread_func
              (map (fun n => {| o_stop := false; o_get := Some (repeat xff n);
                                o_engine := Recognised [69; 88; 73; 84]%N |}) (seq 1 31))
              ocr_init)) /\
  frames_taken
    (fst (ocr_thread_func
            (map (fun n => {| o_stop := false; o_get := Some (repeat xff n);
                              o_engine := OcrFailed |}) (seq 1 31))
            ocr_init))
  = frames_taken
      (fst (ocr_thread_func
              (map (fun n => {| o_stop := false; o_get := Some (repeat xff n);
                                o_engine := Recognised [69; 88; 73; 84]%N |}) (seq 1 31))
              ocr_init)) /\
  recognitions
    (fst (ocr_thread_func
            (map (fun n => {| o_stop := false; o_get := Some (repeat xff n);
                              o_engine := OcrFailed |}) (seq 1 31))
            ocr_init))
  = recognitions
      (fst (ocr_thread_func
              (map (fun n => {| o_stop := false; o_get := Some (repeat xff n);
                                o_engine := Recognised [69; 88; 73; 84]%N |}) (seq 1 31))
              ocr_init)) /\
  snd (ocr_thread_func
         (map (fun n => {| o_stop := false; o_get := Some (repeat xff n);
                           o_engine := OcrFailed |}) (seq 1 31))
         ocr_init)
  = snd (ocr_thread_func
           (map (fun n => {| o_stop := false; o_get := Some (repeat xff n);
                             o_engine := Recognised [69; 88; 73; 84]%N |}) (seq 1 31))
           ocr_init).
Proof.
  apply (recognition_outcome_does_not_affect_sampling
           (map (fun n => {| o_stop := false; o_get := Some (repeat xff n);
                             o_engine := OcrFailed |}) (seq 1 31))
           (map (fun n => {| o_stop := false; o_get := Some (repeat xff n);
                             o_engine := Recognised [69; 88; 73; 84]%N |}) (seq 1 31))).
  unfold same_frames. simpl. repeat constructor.
Defined.

(** ** The whole shutdown *)








(** ** The web server thread when the port cannot be bound *)

Lemma serve_forever_stays (ticks : list web_tick) :
  program_run ticks ->
  web_server_thread_func ticks InServeForever = InServeForever.
Proof.
  unfold web_server_thread_func.
  induction 1 as [|t ticks Ht _ IH]; simpl; [reflexivity|].
  now rewrite Ht.
Qed.

Lemma finished_stays (ticks : list web_tick) :
  web_server_thread_func ticks WebFinished = WebFinished.
Proof.
  unfold web_server_thread_func. induction ticks; simpl; auto.
Qed.

(** X16: in a run of the program the web server thread finishes exactly
    when building the server raises (the port cannot be bound), and then at
    once; otherwise it is inside [serve_forever] for the rest of the
    run. *)
Theorem web_server_finishes_only_on_bind_failure (t : web_tick)
  (ticks : list web_tick) :
  program_run (t :: ticks) ->
  (web_server_thread_func (t :: ticks) WebStart = WebFinished
   <-> w_bind_fails t = true) /\
  (w_bind_fails t = false ->
   web_server_thread_func (t :: ticks) WebStart = InServeForever).
Proof.
  intros Hrun. inversion Hrun as [|? ? _ Hrest]; subst.
  unfold web_server_thread_func. simpl.
  fold (web_server_thread_func ticks
          (if w_bind_fails t then WebFinished else InServeForever)).
  destruct (w_bind_fails t).
  - rewrite finished_stays. split; [tauto|discriminate].
  - rewrite serve_forever_stays by exact Hrest.
    split; [split; discriminate|reflexivity].
Qed.

Lemma web_server_finishes_only_on_bind_failure_witness :
  (web_server_thread_func
     ({| w_stop := false; w_bind_fails := true;
         w_shutdown_requested := false; w_request := false |}
      :: repeat {| w_stop := false; w_bind_fails := false;
                   w_shutdown_requested := false; w_request := true |} 3)
     WebStart = WebFinished
   <-> w_bind_fails {| w_stop := false; w_bind_fails := true;
                       w_shutdown_requested := false; w_request := false |}
       = true) /\
  (w_bind_fails {| w_stop := false; w_bind_fails := true;
                   w_shutdown_requested := false; w_request := false |}
   = false ->
   web_server_thread_func
     ({| w_stop := false; w_bind_fails := true;
         w_shutdown_requested := false; w_request := false |}
      :: repeat {| w_stop := false; w_bind_fails := false;
                   w_shutdown_requested := false; w_request := true |} 3)
     WebStart = InServeForever).
Proof.
  apply (web_server_finishes_only_on_bind_failure
           {| w_stop := false; w_bind_fails := true;
              w_shutdown_requested := false; w_request := false |}
           (repeat {| w_stop := false; w_bind_fails := false;
                      w_shutdown_requested := false; w_request := true |} 3)).
  repeat constructor.
Defined.
